(** * WriteTank orchestration engine: a shallow embedding and its properties

    The engine lives in [src/background.ts] (model client, output repair,
    summary cache, scheduler) and in the content script (text extraction,
    [grabEditorText]).  Each function below is a transcription of the
    TypeScript function of the same name.  *)

From stdpp Require Import prelude strings sorting gmap.

Set Warnings "-register-all".

(** ** Platform strings

    A JavaScript string is a sequence of UTF-16 code units; [length],
    [slice], [indexOf] and [charCodeAt] all count code units.  Strings are
    therefore lists of code units, which also gives the typographic closing
    quotes of [ensureCompleteSentences] (U+201D, U+2019) one unit each. *)

Abbreviation jsstring := (list Z).

Definition str (s : string) : jsstring :=
  (λ a, Z.of_N (Ascii.N_of_ascii a)) <$> String.list_ascii_of_string s.

Section platform_strings.
Local Open Scope Z_scope.

Definition LF : Z := 10.
Definition CR : Z := 13.

(** [String.prototype.trim] strips WhiteSpace and LineTerminator code units:
    TAB, LF, VT, FF, CR, SP, NBSP, the Zs category, LS, PS and the BOM. *)
Definition is_whitespace (c : Z) : bool :=
  existsb (Z.eqb c)
    [9; 10; 11; 12; 13; 32; 160; 5760; 8232; 8233; 8239; 8287; 12288; 65279]
  || ((8192 <=? c) && (c <=? 8202)).

Fixpoint trimStart (s : jsstring) : jsstring :=
  match s with
  | c :: r => if is_whitespace c then trimStart r else s
  | [] => []
  end.

Definition trimEnd (s : jsstring) : jsstring :=
  reverse (trimStart (reverse s)).

Definition trim (s : jsstring) : jsstring := trimEnd (trimStart s).

(** Truth value of a string: the empty string is the only falsy one. *)
Definition truthy_str (s : jsstring) : bool :=
  match s with [] => false | _ :: _ => true end.

(** [s.lastIndexOf(c)] for a one-unit needle, [-1] when absent. *)
Fixpoint lastIndexOf_from (c : Z) (s : jsstring) (i acc : Z) : Z :=
  match s with
  | [] => acc
  | x :: r => lastIndexOf_from c r (i + 1) (if x =? c then i else acc)
  end.

Definition lastIndexOf (c : Z) (s : jsstring) : Z :=
  lastIndexOf_from c s 0 (-1).

(** [s.indexOf(c)] for a one-unit needle, [-1] when absent. *)
Fixpoint indexOf_from (c : Z) (s : jsstring) (i : Z) : Z :=
  match s with
  | [] => -1
  | x :: r => if x =? c then i else indexOf_from c r (i + 1)
  end.

Definition indexOf (c : Z) (s : jsstring) : Z := indexOf_from c s 0.

(** [s.slice(0, e)] and [s.slice(b)] for non-negative bounds. *)
Definition slice_to (e : Z) (s : jsstring) : jsstring := take (Z.to_nat e) s.
Definition slice_from (b : Z) (s : jsstring) : jsstring := drop (Z.to_nat b) s.

(** [s.repeat(n)] *)
Definition repeat_str (s : jsstring) (n : nat) : jsstring :=
  concat (replicate n s).

(** Does [pat] occur at the very start of [s]? *)
Fixpoint starts_with (pat s : jsstring) : bool :=
  match pat, s with
  | [], _ => true
  | p :: pat', c :: s' => (p =? c) && starts_with pat' s'
  | _ :: _, [] => false
  end.

(** [(s.match(re) || []).length] for a global regular expression [re] whose
    source is a literal: the scan reports the leftmost occurrence, resumes
    right after it, and so counts non-overlapping occurrences.  [skip] is
    the number of units still covered by the occurrence just reported. *)
Fixpoint count_from (pat : jsstring) (skip : nat) (s : jsstring) : nat :=
  match s with
  | [] => 0%nat
  | _ :: r =>
      match skip with
      | S k => count_from pat k r
      | O => if starts_with pat s
             then S (count_from pat (length pat - 1) r)
             else count_from pat 0 r
      end
  end.

Definition count_matches (pat s : jsstring) : nat := count_from pat 0 s.

End platform_strings.

(** ** Output repair ([background.ts], "Utilities") *)

Module Repair.
Section repair.
Local Open Scope Z_scope.

(** Full stop, exclamation mark, question mark. *)
Definition terminals : list Z := [46; 33; 63].

(** Closing round, square and curly bracket, U+201D, U+2019, the double
    quote and the apostrophe. *)
Definition closers : list Z := [41; 93; 125; 8221; 8217; 34; 39].

Definition is_terminal (c : Z) : bool := existsb (Z.eqb c) terminals.
Definition is_closer (c : Z) : bool := existsb (Z.eqb c) closers.

(** The [for (const t of terminals)] loop: the largest [lastIndexOf]. *)
Definition last_terminal (text : jsstring) : Z :=
  foldl (λ last t, let idx := lastIndexOf t text in
                   if idx >? last then idx else last) (-1) terminals.

(** [while (end < text.length && closers.includes(text[end])) end++].
    Each turn advances [end], so [length text] turns always suffice. *)
Fixpoint skip_closers (text : jsstring) (end_ : nat) (fuel : nat) : nat :=
  match fuel with
  | O => end_
  | S fuel' =>
      match text !! end_ with
      | Some c => if is_closer c then skip_closers text (S end_) fuel' else end_
      | None => end_
      end
  end.

Definition ensureCompleteSentences (text : jsstring) : jsstring :=
  if negb (truthy_str text) then text else
  let last := last_terminal text in
  if last =? -1 then text else
  let end_ := skip_closers text (Z.to_nat (last + 1)) (length text) in
  trim (take end_ text).

Definition environments : list jsstring :=
  str <$> ["itemize"; "enumerate"; "description"; "equation"; "align";
           "figure"; "table"]%string.

(** The text matched by [\\begin\{env\}] and by [\\end\{env\}]. *)
Definition open_marker (env : jsstring) : jsstring :=
  str "\begin{" ++ env ++ str "}".
Definition close_marker (env : jsstring) : jsstring :=
  str "\end{" ++ env ++ str "}".

(** One turn of [for (const env of environments)]. *)
Definition close_environment (result env : jsstring) : jsstring :=
  let openCount := count_matches (open_marker env) result in
  let closeCount := count_matches (close_marker env) result in
  if (closeCount <? openCount)%nat
  then result ++ [LF] ++ repeat_str (close_marker env) (openCount - closeCount)
  else result.

Definition ensureLatexCompleteness (text : jsstring) : jsstring :=
  if negb (truthy_str text) then text else
  foldl close_environment text environments.

(** The two passes in the order every coaching flow applies them. *)
Definition repair (text : jsstring) : jsstring :=
  ensureLatexCompleteness (ensureCompleteSentences text).

End repair.
End Repair.

(** ** Values decoded from the wire

    [JSON.parse] returns an untyped value.  Numbers are IEEE doubles on the
    platform; this program never computes with a parsed number, it only
    tests its truth value and, when it appends one to a string, takes its
    string image, so a number is carried as those two observations. *)

Inductive JsValue : Type :=
| JUndefined
| JNull
| JBool (b : bool)
| JNum (nonzero : bool) (image : jsstring)
| JStr (s : jsstring)
| JArr (items : list JsValue)
| JObj (fields : list (jsstring * JsValue)).

(** ToBoolean *)
Definition truthy (v : JsValue) : bool :=
  match v with
  | JUndefined | JNull => false
  | JBool b => b
  | JNum nonzero _ => nonzero
  | JStr s => truthy_str s
  | JArr _ | JObj _ => true
  end.

(** ** Failure *)

Inductive Error : Type :=
| OllamaHTTP (status : Z)   (* [new Error(`Ollama HTTP ${res.status}`)] *)
| TypeError                 (* a TypeError raised by the platform *)
| Rejected (reason : jsstring). (* a rejection raised by the platform *)

Inductive Result (A : Type) : Type :=
| Ok (a : A)
| Throw (e : Error).
Arguments Ok {A} a.
Arguments Throw {A} e.

(** Does the object hold a property of its own under [name]? *)
Definition has_own_property (name : jsstring)
    (fields : list (jsstring * JsValue)) : bool :=
  bool_decide (name ∈ fields.*1).

(** The conversion to a string that [s += v] and [Array.prototype.join]
    apply.  A primitive has its image.  An array joins its elements with
    commas, showing [null] and [undefined] elements as nothing.  An object
    is asked for [valueOf] and [toString]: the inherited [valueOf] hands
    back the object itself, the inherited [toString] answers
    ['[object Object]'], and a property of the object's own under
    [toString] shadows the inherited method with a parsed value, which
    cannot be called, so the conversion throws a TypeError. *)
Fixpoint ToString (v : JsValue) : Result jsstring :=
  match v with
  | JUndefined => Ok (str "undefined")
  | JNull => Ok (str "null")
  | JBool true => Ok (str "true")
  | JBool false => Ok (str "false")
  | JNum _ image => Ok image
  | JStr s => Ok s
  | JArr items =>
      let element x :=
        match x with JUndefined | JNull => Ok [] | _ => ToString x end in
      (fix join (l : list JsValue) : Result jsstring :=
         match l with
         | [] => Ok []
         | [x] => element x
         | x :: r =>
             match element x with
             | Ok first =>
                 match join r with
                 | Ok rest => Ok (first ++ str "," ++ rest)
                 | Throw e => Throw e
                 end
             | Throw e => Throw e
             end
         end) items
  | JObj fields =>
      if has_own_property (str "toString") fields then Throw TypeError
      else Ok (str "[object Object]")
  end.

Fixpoint own_property (name : jsstring) (fields : list (jsstring * JsValue))
  : JsValue :=
  match fields with
  | [] => JUndefined
  | (k, v) :: r => if decide (k = name) then v else own_property name r
  end.

(** [v?.name], for the names this program reads ([message], [content],
    [response]): none of them is defined on a built-in prototype, so only
    an object's own property can answer. *)
Definition opt_get (v : JsValue) (name : string) : JsValue :=
  match v with
  | JObj fields => own_property (str name) fields
  | _ => JUndefined
  end.

(** [a || b] and [a ?? b] *)
Definition js_or (a b : JsValue) : JsValue := if truthy a then a else b.
Definition js_nullish (a b : JsValue) : JsValue :=
  match a with JUndefined | JNull => b | _ => a end.

(** ** Model client ([ollamaChat], [ollamaChatStream]) *)

Module ModelClient.

(** Both functions build a request from the settings, the prompts and the
    fixed generation options, and [await fetch] it; what they send has no
    part in what they do with the answer.  They are modelled from the point
    where [fetch] has settled and take its outcome as their argument.

    [Response] is what [fetch] resolved to.  [body] is [None] for a null
    body; otherwise it lists, already decoded by the streaming
    [TextDecoder], the chunks that [reader.read()] yields before it reports
    [done].  [json] is the outcome of [res.json()]. *)
Record Response : Type := {
  ok : bool;
  status : Z;
  body : option (list jsstring);
  json : Result JsValue;
}.

(** [data?.message?.content ?? ''] *)
Definition ollamaChat (fetched : Result Response) : Result JsValue :=
  match fetched with
  | Throw e => Throw e
  | Ok res =>
      if negb (ok res) then Throw (OllamaHTTP (status res)) else
      match json res with
      | Throw e => Throw e
      | Ok data =>
          Ok (js_nullish (opt_get (opt_get data "message") "content") (JStr []))
      end
  end.

(** The text accumulated so far and the arguments [onDelta] was called
    with, oldest first. *)
Record Progress : Type := {
  full : jsstring;
  calls : list JsValue;
}.

Section stream.
(** [JSON.parse]: [None] when it throws a SyntaxError. *)
Variable JSON_parse : jsstring → option JsValue.

(** [obj?.message?.content || obj?.response || ''] *)
Definition delta_of (obj : JsValue) : JsValue :=
  js_or (js_or (opt_get (opt_get obj "message") "content")
               (opt_get obj "response"))
        (JStr []).

(** The [try { ... } catch { }] block run on one non-empty line: whatever
    is thrown inside, by [JSON.parse] or by [full += delta], is ignored. *)
Definition handle_fragment (line : jsstring) (p : Progress) : Progress :=
  match JSON_parse line with
  | Some obj =>
      let delta := delta_of obj in
      if truthy delta then
        match ToString delta with
        | Ok image =>
            {| full := full p ++ image; calls := calls p ++ [delta] |}
        | Throw _ => p   (* [full += delta] threw: [onDelta] is not reached *)
        end
      else p
  | None => p
  end.

(** [while ((idx = buffer.indexOf('\n')) >= 0) { ... }]: every turn removes
    at least the newline from the buffer, so [length buffer] turns always
    suffice. *)
Fixpoint drain_lines (fuel : nat) (buffer : jsstring) (p : Progress)
  : jsstring * Progress :=
  match fuel with
  | O => (buffer, p)
  | S fuel' =>
      let idx := indexOf LF buffer in
      if (idx >=? 0)%Z then
        let line := trim (slice_to idx buffer) in
        let buffer' := slice_from (idx + 1) buffer in
        if negb (truthy_str line) then drain_lines fuel' buffer' p
        else drain_lines fuel' buffer' (handle_fragment line p)
      else (buffer, p)
  end.

(** [while (true) { const { value, done } = await reader.read(); ... }] *)
Fixpoint read_loop (chunks : list jsstring) (buffer : jsstring) (p : Progress)
  : jsstring * Progress :=
  match chunks with
  | [] => (buffer, p)
  | value :: rest =>
      let buffer := buffer ++ value in
      let '(buffer, p) := drain_lines (length buffer) buffer p in
      read_loop rest buffer p
  end.

(** [// flush remainder] *)
Definition flush_remainder (buffer : jsstring) (p : Progress) : Progress :=
  if truthy_str (trim buffer) then handle_fragment (trim buffer) p else p.

(** The pair is the outcome of the call and the [onDelta] invocations made
    before it settled. *)
Definition ollamaChatStream (fetched : Result Response)
  : Result jsstring * list JsValue :=
  match fetched with
  | Throw e => (Throw e, [])
  | Ok res =>
      match negb (ok res), body res with
      | false, Some chunks =>
          let '(buffer, p) :=
            read_loop chunks [] {| full := []; calls := [] |} in
          let p := flush_remainder buffer p in
          (Ok (full p), calls p)
      | _, _ => (Throw (OllamaHTTP (status res)), [])
      end
  end.

End stream.
End ModelClient.

(** ** Arrays and objects of the platform *)

(** [Array.prototype.sort(cmp)]: a stable sort; [x] is placed before the
    first element it does not have to follow. *)
Fixpoint sort_insert {A} (cmp : A → A → Z) (x : A) (l : list A) : list A :=
  match l with
  | [] => [x]
  | y :: r => if (cmp x y <=? 0)%Z then x :: l else y :: sort_insert cmp x r
  end.

Definition js_sort {A} (cmp : A → A → Z) (l : list A) : list A :=
  foldr (sort_insert cmp) [] l.

(** [l.join('\n')] *)
Fixpoint join_lines (l : list jsstring) : jsstring :=
  match l with
  | [] => []
  | [x] => x
  | x :: r => x ++ [LF] ++ join_lines r
  end.

(** ** Summary cache *)

Module SummaryCache.

(** A section key is the decimal image of an unsigned 32-bit number (see
    [simpleHash]); it is carried as that number. *)
Record SummaryEntry : Type := {
  sectionKey : Z;
  text : jsstring;
  updatedAt : Z;
}.

(** The per-document table [Record<string, SummaryEntry>]. *)
Abbreviation Summaries := (gmap Z SummaryEntry).

Section hash.
Local Open Scope Z_scope.

(** ToInt32 and ToUint32 *)
Definition toInt32 (x : Z) : Z :=
  let m := x mod 2 ^ 32 in if 2 ^ 31 <=? m then m - 2 ^ 32 else m.
Definition toUint32 (x : Z) : Z := x mod 2 ^ 32.

(** [h = ((h << 5) - h) + s.charCodeAt(i); h |= 0], then [h >>> 0]. *)
Definition simpleHash (s : jsstring) : Z :=
  toUint32 (foldl (λ h c, toInt32 (toInt32 (h ≪ 5) - h + c)) 0 s).

End hash.

(** Own properties are enumerated with integer-like keys first, in
    ascending numeric order.  Every key of the table is the image of a
    number below [2 ^ 32], so enumeration is by ascending key. *)
Definition Object_entries (o : Summaries) : list (Z * SummaryEntry) :=
  js_sort (λ a b, a.1 - b.1)%Z (map_to_list o).
Definition Object_keys (o : Summaries) : list Z := (Object_entries o).*1.
Definition Object_values (o : Summaries) : list SummaryEntry :=
  (Object_entries o).*2.

(** [(a, b) => b.updatedAt - a.updatedAt] *)
Definition by_recency (a b : SummaryEntry) : Z :=
  (updatedAt b - updatedAt a)%Z.

(** [new Set(list)] keeps distinct members in order of first insertion. *)
Definition Set_has (s : list jsstring) (x : jsstring) : bool :=
  bool_decide (x ∈ s).
Definition Set_add (s : list jsstring) (x : jsstring) : list jsstring :=
  if Set_has s x then s else s ++ [x].
Definition new_Set (l : list jsstring) : list jsstring := foldl Set_add [] l.

(** One unit of the class [[a-z0-9]]. *)
Definition is_token_unit (c : Z) : bool :=
  ((97 <=? c) && (c <=? 122) || (48 <=? c) && (c <=? 57))%Z.

(** [s.match(/[a-z0-9]{3,}/g) || []]: the maximal runs of token units that
    are at least three units long; [run] is the run being read. *)
Definition emit_run (run : jsstring) : list jsstring :=
  if (3 <=? length run)%nat then [run] else [].

Fixpoint match_runs (run s : jsstring) : list jsstring :=
  match s with
  | [] => emit_run run
  | c :: r =>
      if is_token_unit c then match_runs (run ++ [c]) r
      else emit_run run ++ match_runs [] r
  end.

Section pick.
(** [String.prototype.toLowerCase] *)
Variable toLowerCase : jsstring → jsstring.

Definition tokenize (s : jsstring) : list jsstring :=
  new_Set (match_runs [] (toLowerCase s)).

(** [for (const w of sel) if (t.has(w)) score++] *)
Definition overlap (sel t : list jsstring) : Z :=
  foldl (λ score w, if Set_has t w then (score + 1)%Z else score) 0%Z sel.

(** One turn of [for (const e of entries)]. *)
Definition consider (sel : list jsstring)
    (acc : option SummaryEntry * Z) (e : SummaryEntry)
  : option SummaryEntry * Z :=
  let score := overlap sel (tokenize (text e)) in
  if (score >? acc.2)%Z then (Some e, score) else acc.

Definition pickBestSummary (provided : jsstring) (summaries : Summaries)
  : option SummaryEntry :=
  let entries := Object_values summaries in
  if bool_decide (length entries = 0) then None else
  let sel := tokenize provided in
  if bool_decide (length sel = 0) then head (js_sort by_recency entries) else
  match (foldl (consider sel) (None, -1)%Z entries).1 with
  | Some best => Some best
  | None => head (js_sort by_recency entries)
  end.

End pick.

(** What one call of [maybeUpdateSummary] did. *)
Inductive Outcome : Type :=
| AlreadyCached                  (* returned before calling the model *)
| NothingStored                  (* the model gave no usable summary *)
| Failed (e : Error)             (* the call rejected *)
| Saved (summaries : Summaries). (* [saveSummaries] wrote this table *)

Definition maxEntries : nat := 12.

(** [// Cap entries per doc (keep most recent 12)] *)
Definition cap_entries (summaries : Summaries) : Summaries :=
  let entries := js_sort by_recency (Object_values summaries) in
  if (maxEntries <? length entries)%nat then
    let keepSet := sectionKey <$> take maxEntries entries in
    foldl (λ o key, if bool_decide (key ∈ keepSet) then o else delete key o)
          summaries (Object_keys summaries)
  else summaries.

(** [summaries] is the table [loadSummaries] returned for the active
    document, [fetched] is what the summarization request resolves to,
    should it be sent, and [now] is [Date.now()] at the time of the write.
    The notice sent to the tab after the write is left out. *)
Definition maybeUpdateSummary (sampleText : jsstring) (summaries : Summaries)
    (fetched : Result ModelClient.Response) (now : Z) : Outcome :=
  let key := simpleHash (take 800 sampleText) in
  let cached :=
    match summaries !! key with
    | Some e => truthy_str (text e)
    | None => false
    end in
  if cached then AlreadyCached else
  let summary :=
    match ModelClient.ollamaChat fetched with
    | Ok v => v
    | Throw _ => JStr []
    end in
  if negb (truthy summary) then NothingStored else
  match summary with
  | JStr s =>
      if truthy_str (trim s) then
        Saved (cap_entries
                 (<[key := {| sectionKey := key; text := trim s;
                              updatedAt := now |}]> summaries))
      else NothingStored
  | _ => Failed TypeError
  end.

(** The table in storage once the call has completed. *)
Definition stored_after (summaries : Summaries) (o : Outcome) : Summaries :=
  match o with Saved summaries' => summaries' | _ => summaries end.

End SummaryCache.

(** ** Settings store and scheduler *)

Module Scheduler.

Record Settings : Type := {
  endpoint : string;
  model : string;
  intervalMin : Z;
  paused : bool;
}.

(** [Partial<Settings>]; also the shape of what storage holds. *)
Record Patch : Type := {
  endpoint' : option string;
  model' : option string;
  intervalMin' : option Z;
  paused' : option bool;
}.

Definition DEFAULTS : Settings := {|
  endpoint := "http://localhost:11434";
  model := "gpt-oss:20b";
  intervalMin := 5;
  paused := true;
|}.

Definition no_patch : Patch :=
  {| endpoint' := None; model' := None; intervalMin' := None;
     paused' := None |}.

(** [{ ...base, ...over }] *)
Definition spread (base : Settings) (over : Patch) : Settings := {|
  endpoint := default (endpoint base) (endpoint' over);
  model := default (model base) (model' over);
  intervalMin := default (intervalMin base) (intervalMin' over);
  paused := default (paused base) (paused' over);
|}.

Definition all_of (s : Settings) : Patch := {|
  endpoint' := Some (endpoint s);
  model' := Some (model s);
  intervalMin' := Some (intervalMin s);
  paused' := Some (paused s);
|}.

(** The part of the browser this component acts on: the settings keys of
    [chrome.storage.local] and the alarms of [chrome.alarms], each alarm
    held under its name with its period in minutes. *)
Record Chrome : Type := {
  storage : Patch;
  alarms : gmap string Z;
}.

Definition TICK : string := "writetank:tick".

(** [chrome.storage.local.get(DEFAULTS)] answers every key of [DEFAULTS],
    with the stored value where there is one. *)
Definition getSettings (w : Chrome) : Settings :=
  let s := spread DEFAULTS (storage w) in
  spread DEFAULTS (all_of s).

Definition alarms_clear (name : string) (w : Chrome) : Chrome :=
  {| storage := storage w; alarms := delete name (alarms w) |}.

Definition alarms_create (name : string) (periodInMinutes : Z) (w : Chrome)
  : Chrome :=
  {| storage := storage w; alarms := <[name := periodInMinutes]> (alarms w) |}.

Definition ensureAlarm (w : Chrome) : Chrome :=
  let s := getSettings w in
  let w := alarms_clear TICK w in
  if negb (paused s) && (intervalMin s >? 0)%Z
  then alarms_create TICK (intervalMin s) w
  else w.

Definition setSettings (patch : Patch) (w : Chrome) : Chrome :=
  let prev := getSettings w in
  let w := {| storage := all_of (spread prev patch); alarms := alarms w |} in
  ensureAlarm w.

(** The listeners that touch settings or alarms. *)
Inductive Event : Type :=
| Installed                      (* [chrome.runtime.onInstalled] *)
| Startup                        (* [chrome.runtime.onStartup] *)
| SettingsSet (patch : Patch).   (* the ['settings:set'] message *)

Definition handle (ev : Event) (w : Chrome) : Chrome :=
  match ev with
  | Installed => ensureAlarm (setSettings no_patch w)
  | Startup => ensureAlarm w
  | SettingsSet patch => setSettings patch w
  end.

(** A freshly installed extension has stored nothing and set no alarm. *)
Definition fresh : Chrome := {| storage := no_patch; alarms := ∅ |}.

Definition run (evs : list Event) : Chrome :=
  foldl (λ w ev, handle ev w) fresh evs.

End Scheduler.

(** ** Text source adapter ([grabEditorText], content script) *)

Module TextSource.

(** What an optional editor accessor did when it was consulted. *)
Inductive Probe : Type :=
| Absent                  (* no such editor, accessor or range *)
| Raised                  (* it threw; the [catch] block took over *)
| Returned (s : jsstring).

Record Line : Type := {
  offsetTop : Z;
  offsetHeight : Z;
  innerText : jsstring;
}.

Record Scroller : Type := { scrollTop : Z; clientHeight : Z }.

(** The first element matching ['.cm-content, .cm-editor']. *)
Record CodeMirror : Type := {
  cm_lines : list jsstring;        (* text of the line elements below it *)
  cm_scroller : option Scroller;   (* ['.cm-scroller'] *)
  cm_content : option (list Line); (* ['.cm-content'] and its lines *)
}.

(** An Ace editor object; [getTextRange first last] reads from row
    [first], column 0 to row [last], column 0. *)
Record AceEditor : Type := {
  firstVisibleRow : Z;
  lastVisibleRow : Z;
  getTextRange : Z → Z → Result jsstring;
}.

(** The element ['.ace_content']; [ace_editor] is [None] when no editor
    object or no Range class can be obtained. *)
Record Ace : Type := {
  ace_editor : option AceEditor;
  ace_lines : list jsstring;       (* text of the ['.ace_line'] elements *)
}.

(** Everything [grabEditorText] reads from the page. *)
Record Document : Type := {
  windowSelection : option jsstring; (* [window.getSelection()?.toString()] *)
  cmSelection : Probe;               (* Method 2 *)
  cmAltSelections : list Probe;      (* Method 2.5, one per element *)
  aceSelection : Probe;              (* Method 3 *)
  editableRanges : list Probe;       (* Method 4, one per element *)
  codeMirror : option CodeMirror;
  ace : option Ace;
  editorElements : list jsstring;    (* Method 3 of the content lookup *)
  bodyInnerText : jsstring;          (* [document.body.innerText || ''] *)
}.

Inductive Mode : Type := All | Visible.

Record TextSample : Type := {
  selection : jsstring;
  text : jsstring;
  wasTruncated : bool;
}.

(** [x && x.trim()] followed by [sel = x.trim()]: the text a probe
    contributes, empty when it contributes none. *)
Definition probe_text (p : Probe) : jsstring :=
  match p with
  | Returned s => trim s
  | Absent | Raised => []
  end.

(** A [for ... of] loop over elements that stops at the first hit. *)
Fixpoint first_hit (ps : list Probe) : jsstring :=
  match ps with
  | [] => []
  | p :: r => if truthy_str (probe_text p) then probe_text p else first_hit r
  end.

(** [if (!sel) { ... }] *)
Definition unless (sel next : jsstring) : jsstring :=
  if truthy_str sel then sel else next.

Definition find_selection (doc : Document) : jsstring :=
  let sel := match windowSelection doc with
             | Some s => trim s
             | None => []
             end in
  let sel := unless sel (probe_text (cmSelection doc)) in
  let sel := unless sel (first_hit (cmAltSelections doc)) in
  let sel := unless sel (probe_text (aceSelection doc)) in
  unless sel (first_hit (editableRanges doc)).

Section content.
Local Open Scope Z_scope.

(** [y + h >= top && y <= bottom] with [h = l.offsetHeight || 18] *)
Definition in_view (top bottom : Z) (l : Line) : bool :=
  let y := offsetTop l in
  let h := if offsetHeight l =? 0 then 18 else offsetHeight l in
  (y + h >=? top) && (y <=? bottom).

(** [allLines.slice(b, e)] for [0 <= b] *)
Definition slice {A} (b e : Z) (l : list A) : list A :=
  take (Z.to_nat e - Z.to_nat b) (drop (Z.to_nat b) l).

Definition visible_cm_text (scroller : Scroller) (allLines : list Line)
  : jsstring :=
  let top := scrollTop scroller in
  let bottom := top + clientHeight scroller in
  let visible :=
    filter (λ il, in_view top bottom il.2 = true)
           (imap (λ i l, (Z.of_nat i, l)) allLines) in
  let pad := 16 in
  let '(firstIdx, lastIdx) :=
    match visible, last visible with
    | il :: _, Some il' =>
        (il.1, Z.min (Z.of_nat (length allLines) - 1) (il'.1 + pad))
    | _, _ => (0, -1)
    end in
  let slice_ := if lastIdx >=? firstIdx
                then slice firstIdx (lastIdx + 1) allLines
                else visible.*2 in
  let text := join_lines (innerText <$>
                (if (0 <? length slice_)%nat then slice_ else allLines)) in
  if negb (truthy_str (trim text)) && (0 <? length allLines)%nat then
    let start := if firstIdx >=? 0 then firstIdx else 0 in
    let end_ := Z.min (Z.of_nat (length allLines)) (start + 20) in
    join_lines (innerText <$> slice start end_ allLines)
  else text.

(** The [try] block of the Ace branch; the text is still empty when it is
    entered and keeps its last assigned value when a call throws. *)
Definition visible_ace_text (editor : option AceEditor) : jsstring :=
  match editor with
  | None => []
  | Some ed =>
      let first := firstVisibleRow ed in
      let last := lastVisibleRow ed in
      let extra := 8 in
      match getTextRange ed first (last + extra) with
      | Throw _ => []
      | Ok text =>
          if negb (truthy_str text) || negb (truthy_str (trim text)) then
            match getTextRange ed first (Z.min (last + 12) (first + 24)) with
            | Throw _ => text
            | Ok text' => text'
            end
          else text
      end
  end.

Definition editor_text (mode : Mode) (doc : Document) : jsstring :=
  match codeMirror doc with
  | Some cm =>
      match mode, cm_scroller cm, cm_content cm with
      | Visible, Some scroller, Some allLines =>
          visible_cm_text scroller allLines
      | _, _, _ => join_lines (cm_lines cm)
      end
  | None =>
      match ace doc with
      | Some a =>
          let text := match mode with
                      | Visible => visible_ace_text (ace_editor a)
                      | All => []
                      end in
          if negb (truthy_str text) then join_lines (ace_lines a) else text
      | None =>
          if (0 <? length (editorElements doc))%nat
          then join_lines (editorElements doc)
          else bodyInnerText doc
      end
  end.

(** [text.replace(/\r\n/g, '\n')] and [text.replace(/\r/g, '\n')] *)
Fixpoint replace_crlf (s : jsstring) : jsstring :=
  match s with
  | [] => []
  | c :: r =>
      match r with
      | d :: r' => if (c =? CR) && (d =? LF) then LF :: replace_crlf r'
                   else c :: replace_crlf r
      | [] => [c]
      end
  end.

Definition replace_cr (s : jsstring) : jsstring :=
  (λ c, if c =? CR then LF else c) <$> s.

(** [// Clean up the text] *)
Definition clean_up (text : jsstring) : jsstring :=
  trim (replace_cr (replace_crlf text)).

Definition max : nat := 1500.

(** The text chosen before it is cleaned and trimmed to [max]. *)
Definition chosen_text (preferSelection : bool) (mode : Mode) (doc : Document)
  : jsstring :=
  let sel := find_selection doc in
  if preferSelection then
    if (0 <? length sel)%nat then sel else []
  else editor_text mode doc.

Definition grabEditorText (preferSelection : bool) (mode : Mode)
    (doc : Document) : TextSample :=
  let sel := find_selection doc in
  let text := clean_up (chosen_text preferSelection mode doc) in
  let wasTruncated := (max <? length text)%nat in
  let text := if wasTruncated then take max text else text in
  {| selection := sel; text := text; wasTruncated := wasTruncated |}.

End content.
End TextSource.

(** ** Coaching flows ([onMessage] and [onAlarm] listeners) *)

Module Engine.
Import Repair ModelClient.

#[export] Instance Result_ret : MRet Result := λ A a, Ok a.
#[export] Instance Result_bind : MBind Result :=
  λ A B f m, match m with Ok a => f a | Throw e => Throw e end.

Definition FALLBACK : jsstring :=
  str "No substantial issues detected. Keep going!".

(** [(out && out.trim()) ? out : FALLBACK]; a truthy value that has no
    [trim] method makes the expression throw. *)
Definition safeOut (out : JsValue) : Result jsstring :=
  match out with
  | JStr s => Ok (if truthy_str s && truthy_str (trim s) then s else FALLBACK)
  | _ => if truthy out then Throw TypeError else Ok FALLBACK
  end.

Definition finalOut (out : JsValue) : Result jsstring :=
  safe ← safeOut out;
  let completed := ensureCompleteSentences safe in
  mret (ensureLatexCompleteness completed).

(** What a handler passes to [sendResponse]. *)
Inductive Reply : Type :=
| ReplyText (text : jsstring)   (* [{ ok: true, text, updatedAt }] *)
| ReplyDone                     (* [{ ok: true }] *)
| ReplyNoTab                    (* [{ ok: false, error: 'No Overleaf tab' }] *)
| ReplyNoText                   (* [{ ok: false, error: 'No text' }] *)
| ReplyError (e : Error).       (* [{ ok: false, error: e.message }] *)

(** What the document view is sent on its answer channels; progress
    notices are left out. *)
Inductive ViewMessage : Type :=
| AnswerDelta (delta : JsValue) (* ['coach:answer:delta'] *)
| Answer (text : jsstring)      (* ['coach:answer'] *)
| ErrorStatus.                  (* ['coach:status'] with an error text *)

(** The ['coach'] and ['coach:expand'] handlers differ in the prompt and
    the token cap they send, not in what they do with the answer. *)
Definition on_coach (fetched : Result Response) : Reply :=
  match ollamaChat fetched ≫= finalOut with
  | Ok text => ReplyText text
  | Throw e => ReplyError e
  end.

Definition on_coach_expand (fetched : Result Response) : Reply :=
  match ollamaChat fetched ≫= finalOut with
  | Ok text => ReplyText text
  | Throw e => ReplyError e
  end.

(** What a flow finds when it looks for text to coach on: whether there is
    an active tab, and the text of the two [grabText] replies (empty when a
    reply is missing). *)
Record Page : Type := {
  has_tab : bool;
  visible_text : jsstring;
  full_text : jsstring;
}.

(** [sample?.text] after the fallback to the full editor text. *)
Definition sample_text (page : Page) : jsstring :=
  if truthy_str (visible_text page) then visible_text page else full_text page.

Section flows.
Variable JSON_parse : jsstring → option JsValue.

(** The [onDelta] callback of ['run-now']: [streamedOutput += delta].  The
    callback runs inside the [try] block of [ollamaChatStream], which would
    ignore what it throws; it is only reached with a delta that
    [full += delta] has just converted. *)
Definition streamed (calls : list JsValue) : jsstring :=
  foldl (λ streamedOutput delta,
           match ToString delta with
           | Ok image => streamedOutput ++ image
           | Throw _ => streamedOutput
           end) [] calls.

Definition on_run_now (page : Page) (fetched : Result Response)
  : Reply * list ViewMessage :=
  if negb (has_tab page) then (ReplyNoTab, []) else
  if negb (truthy_str (sample_text page)) then (ReplyNoText, []) else
  let '(settled, calls) := ollamaChatStream JSON_parse fetched in
  let sent := AnswerDelta <$> calls in
  match settled ≫= (λ _, finalOut (JStr (streamed calls))) with
  | Ok text => (ReplyDone, sent ++ [Answer text])
  | Throw e => (ReplyError e, sent ++ [ErrorStatus])
  end.

End flows.

(** The alarm listener; [name] is the alarm that fired and [is_paused] the
    stored flag. *)
Definition on_alarm (name : string) (is_paused : bool) (page : Page)
    (fetched : Result Response) : list ViewMessage :=
  if negb (bool_decide (name = Scheduler.TICK)) then [] else
  if is_paused then [] else
  if negb (has_tab page) then [] else
  if negb (truthy_str (sample_text page)) then [] else
  match ollamaChat fetched ≫= finalOut with
  | Ok text => [Answer text]
  | Throw _ => [ErrorStatus]
  end.

End Engine.

(** ** Question answering ([trimChars], the ['qa'] handler) *)

Module Asking.
Import Repair ModelClient SummaryCache Engine.

(** [trimChars(s, max)] *)
Definition trimChars (s : jsstring) (max : nat) : jsstring :=
  if negb (truthy_str s) then [] else
  if (max <? length s)%nat then take max s else s.

(** ['\n\nSelection:\n'] *)
Definition selection_label : jsstring :=
  [LF; LF] ++ str "Selection:" ++ [LF].

Section qa.
Variable toLowerCase : jsstring → jsstring.
Variable JSON_parse : jsstring → option JsValue.

(** The context of a question.  [loaded] is the outcome of loading the
    summary table of the active document; the handler ignores a failure
    there and keeps the trimmed text. *)
Definition qa_context (provided : jsstring) (loaded : Result Summaries)
  : jsstring :=
  let context := trimChars provided 1500 in
  match loaded with
  | Throw _ => context
  | Ok summaries =>
      match pickBestSummary toLowerCase provided summaries with
      | Some best =>
          if truthy_str (text best) then
            trimChars (text best ++
                       (if truthy_str provided
                        then selection_label ++ provided else []))
                      1500
          else context
      | None => context
      end
  end.

(** The second [try] block of the handler: the reply passed to
    [sendResponse], and the deltas forwarded to the tab on
    ['qa:answer:delta'] (none when there is no tab to send them to). *)
Definition on_qa (has_tab : bool) (fetched : Result Response)
  : Reply * list JsValue :=
  let '(settled, calls) := ollamaChatStream JSON_parse fetched in
  let forwarded := if has_tab then calls else [] in
  match settled with
  | Ok _ => (ReplyText (ensureLatexCompleteness (streamed calls)), forwarded)
  | Throw e => (ReplyError e, forwarded)
  end.

End qa.

(** [endpoint.replace(/\/$/, '')], then the path of the chat API. *)
Definition strip_slash (endpoint : jsstring) : jsstring :=
  match reverse endpoint with
  | c :: r => if (c =? 47)%Z then reverse r else endpoint
  | [] => endpoint
  end.

Definition chat_url (endpoint : jsstring) : jsstring :=
  strip_slash endpoint ++ str "/api/chat".

End Asking.

(** ** Popup: the settings form *)

Module Popup.

(** [s.replace(/\/+$/, '')]: the run of slashes at the end is removed. *)
Fixpoint drop_slashes (s : jsstring) : jsstring :=
  match s with
  | c :: r => if (c =? 47)%Z then drop_slashes r else s
  | [] => []
  end.

Definition strip_slashes (s : jsstring) : jsstring :=
  reverse (drop_slashes (reverse s)).

Definition default_endpoint : jsstring := str "http://localhost:11434".

(** [normalizeEndpoint] *)
Definition normalizeEndpoint (v : jsstring) : jsstring :=
  let s := if truthy_str (trim v) then trim v else default_endpoint in
  strip_slashes s.

(** The mathematical value [parseInt] reads: none, or an integer.  The
    number it returns is that integer rounded to a double. *)
Inductive Parsed : Type :=
| NaN
| Int (z : Z).

Definition is_digit (c : Z) : bool := ((48 <=? c) && (c <=? 57))%Z.

(** The value of the longest run of decimal digits at the start of [s],
    continuing [acc]; the flag tells whether a digit has been read. *)
Fixpoint read_digits (s : jsstring) (acc : Z) (seen : bool) : Z * bool :=
  match s with
  | c :: r => if is_digit c then read_digits r (10 * acc + (c - 48))%Z true
              else (acc, seen)
  | [] => (acc, seen)
  end.

(** [parseInt(s, 10)]: leading white space, an optional sign, digits. *)
Definition parseInt (s : jsstring) : Parsed :=
  let s := trimStart s in
  let '(negative, digits) :=
    match s with
    | c :: r => if (c =? 45)%Z then (true, r)
                else if (c =? 43)%Z then (false, r) else (false, s)
    | [] => (false, s)
    end in
  let '(value, seen) := read_digits digits 0%Z false in
  if seen then Int (if negative then - value else value)%Z else NaN.

Section interval.
(** Whether the platform rounds an integer to an infinity; it is consulted
    for magnitudes of [2 ^ 1023] and more only, below which every integer
    rounds to a finite double. *)
Variable overflows : Z → bool.

(** [Number.isFinite] *)
Definition isFinite (n : Parsed) : bool :=
  match n with
  | NaN => false
  | Int z => (Z.abs z <? 2 ^ 1023)%Z || negb (overflows z)
  end.

(** [Math.max(1, Math.min(60, Number.isFinite(raw) ? raw : 5))], with
    [raw = parseInt(value || '5', 10)].  Rounding to a double is monotone
    and exact below [2 ^ 53], so the comparisons with 1 and 60 come out as
    on the integer itself. *)
Definition clamp_interval (value : jsstring) : Z :=
  let raw := parseInt (if truthy_str value then value else str "5") in
  let chosen := match raw with
                | Int z => if isFinite raw then z else 5%Z
                | NaN => 5%Z
                end in
  (1 `max` (60 `min` chosen))%Z.

(** The patch the Save button sends with ['settings:set'].  The model and
    endpoint fields are taken as already normalized. *)
Definition on_save (interval_value : jsstring) (model endpoint : string)
  : Scheduler.Patch :=
  {| Scheduler.endpoint' := Some endpoint;
     Scheduler.model' := Some model;
     Scheduler.intervalMin' := Some (clamp_interval interval_value);
     Scheduler.paused' := None |}.

End interval.

(** The patch the Paused checkbox sends. *)
Definition on_paused_change (checked : bool) : Scheduler.Patch :=
  {| Scheduler.endpoint' := None; Scheduler.model' := None;
     Scheduler.intervalMin' := None; Scheduler.paused' := Some checked |}.

End Popup.

(** ** Panel of the content script ([onAsk], [togglePause], ['grabText']) *)

Module Panel.
Import TextSource.

(** What [onAsk] does after reading the form: it shows a notice and sends
    nothing, or it sends the ['qa'] request. *)
Inductive AskStep : Type :=
| Notice (text : jsstring)
| Request (question text : jsstring).

Definition empty_sample : TextSample :=
  {| selection := []; text := []; wasTruncated := false |}.

(** [q] is the value of the question box; [useSel] and [useVisible] are
    the two checkboxes. *)
Definition onAsk (q : jsstring) (useSel useVisible : bool) (doc : Document)
  : AskStep :=
  let question := trim q in
  if negb (truthy_str question) then Notice (str "(enter a question)") else
  let sample :=
    if useSel then grabEditorText true All doc
    else if useVisible then grabEditorText false Visible doc
    else empty_sample in
  if useSel && negb (truthy_str (selection sample))
  then Notice (str "(no selection)")
  else Request question (text sample).

(** [renderQA(res.text || '(no answer)')] and
    [renderCoach]'s [text || '(no suggestions)']. *)
Definition shown_answer (text : jsstring) : jsstring :=
  if truthy_str text then text else str "(no answer)".

Definition shown_coaching (text : jsstring) : jsstring :=
  if truthy_str text then text else str "(no suggestions)".

(** The answer to the ['grabText'] message of the background. *)
Definition on_grabText (visible : bool) (doc : Document) : jsstring :=
  text (grabEditorText false (if visible then Visible else All) doc).

(** [togglePause]: read the settings, send back the opposite flag. *)
Definition togglePause (w : Scheduler.Chrome) : Scheduler.Chrome :=
  let s := Scheduler.getSettings w in
  Scheduler.handle
    (Scheduler.SettingsSet
       {| Scheduler.endpoint' := None; Scheduler.model' := None;
          Scheduler.intervalMin' := None;
          Scheduler.paused' := Some (negb (Scheduler.paused s)) |}) w.

End Panel.

(** * Vocabulary of the properties *)

Section repair_vocabulary.
Import Repair.

Definition no_terminal (s : jsstring) : Prop :=
  Forall (λ c, is_terminal c = false) s.

Definition all_closers (s : jsstring) : Prop :=
  Forall (λ c, is_closer c = true) s.

Definition closer_free_start (w : jsstring) : Prop :=
  match w with c :: _ => is_closer c = false | [] => True end.

Definition solid_start (s : jsstring) : Prop :=
  match s with c :: _ => is_whitespace c = false | [] => True end.

(** A completed text: it ends in a terminal mark followed by closers only
    and does not start with white space. *)
Definition completed (u : jsstring) : Prop :=
  ∃ p t cl, u = p ++ t :: cl ∧ is_terminal t = true ∧ all_closers cl ∧
            solid_start u.

(** Two literals clash when they differ at a position both have. *)
Fixpoint clash (pat q : jsstring) : bool :=
  match pat, q with
  | p :: pat', c :: q' => negb (p =? c)%Z || clash pat' q'
  | _, _ => false
  end.

Definition markers : list jsstring :=
  (open_marker <$> environments) ++ (close_marker <$> environments).

(** A marker starts with its only backslash and holds neither a line feed
    nor a terminal mark. *)
Definition plain_marker (pat : jsstring) : bool :=
  match pat with
  | h :: pat' =>
      ((h =? 92)%Z && forallb (λ c, negb (c =? 92)%Z) pat') &&
      forallb (λ c, negb (c =? LF)%Z && negb (is_terminal c)) pat
  | [] => false
  end.

(** The block appended for one environment. *)
Definition closing_block (env : jsstring) (n : nat) : jsstring :=
  if (0 <? n) then [LF] ++ repeat_str (close_marker env) n else [].

Definition deficit (env y : jsstring) : nat :=
  count_matches (open_marker env) y - count_matches (close_marker env) y.

Definition balanced (env y : jsstring) : Prop :=
  count_matches (open_marker env) y ≤ count_matches (close_marker env) y.

Definition itemize : jsstring := str "itemize".

End repair_vocabulary.

(** [s.split(c)]: the pieces between the occurrences of [c]. *)
Fixpoint split_on (c : Z) (s : jsstring) : list jsstring :=
  match s with
  | [] => [[]]
  | x :: r =>
      if (x =? c)%Z then [] :: split_on c r
      else match split_on c r with
           | piece :: pieces => (x :: piece) :: pieces
           | [] => [[x]]
           end
  end.

(** The complete lines of a text and what follows its last line feed. *)
Fixpoint cut_lines (s : jsstring) : list jsstring * jsstring :=
  match s with
  | [] => ([], [])
  | x :: r =>
      let '(ls, rem) := cut_lines r in
      if (x =? LF)%Z then ([] :: ls, rem)
      else match ls with
           | [] => ([], x :: rem)
           | l :: ls' => ((x :: l) :: ls', rem)
           end
  end.

(** Whether a value converts to a string, and the string it converts to. *)
Definition converts (v : JsValue) : bool :=
  match ToString v with Ok _ => true | Throw _ => false end.
Definition image (v : JsValue) : jsstring :=
  match ToString v with Ok s => s | Throw _ => [] end.

Section stream_vocabulary.
Import ModelClient.
Variable JSON_parse : jsstring → option JsValue.

(** The deltas one fragment of the wire text gives rise to: its delta when
    it is not blank, parses, and carries a truthy delta that converts to a
    string; none otherwise. *)
Definition fragment_deltas (piece : jsstring) : list JsValue :=
  let line := trim piece in
  if truthy_str line then
    match JSON_parse line with
    | Some obj =>
        if truthy (delta_of obj) && converts (delta_of obj)
        then [delta_of obj] else []
    | None => []
    end
  else [].

(** The deltas of a wire text, fragment by fragment, in order. *)
Definition deltas_of (wire : jsstring) : list JsValue :=
  split_on LF wire ≫= fragment_deltas.

Definition extend (p : Progress) (ds : list JsValue) : Progress :=
  {| full := full p ++ concat (image <$> ds); calls := calls p ++ ds |}.

End stream_vocabulary.

(** Wire text is written with a backquote where it has a double quote. *)
Definition wire (s : string) : jsstring :=
  (λ c, if (c =? 96)%Z then 34%Z else c) <$> str s.

(** [JSON.parse], tabulated on the lines the examples below put on the
    wire; any other line they use is malformed. *)
Definition JSON_parse_sample (line : jsstring) : option JsValue :=
  let content s := JObj [(str "message", JObj [(str "content", JStr s)])] in
  if decide (line = wire "{`message`:{`content`:`\\para`}}")
  then Some (content (str "\para"))
  else if decide (line = wire "{`message`:{`content`:`graph{Structure}`}}")
  then Some (content (str "graph{Structure}"))
  else if decide (line = wire "{`message`:{`content`:` Good.`}}")
  then Some (content (str " Good."))
  else if decide (line = wire "{`message`:{`content`:``},`done`:true}")
  then Some (JObj [(str "message", JObj [(str "content", JStr [])]);
                   (str "done", JBool true)])
  else if decide (line = wire "{`message`:{`content`:{`toString`:1}}}")
  then Some (JObj [(str "message",
                    JObj [(str "content",
                           JObj [(str "toString", JNum true (str "1"))])])])
  else None.

(** The fragments of a wire text that [JSON.parse] accepts. *)
Definition parsed_fragments (JSON_parse : jsstring → option JsValue)
    (text : jsstring) : list jsstring :=
  filter (λ line, truthy_str line = true ∧ is_Some (JSON_parse line))
         (trim <$> split_on LF text).

Section scheduler_vocabulary.
Import Scheduler.

(** The condition under which [ensureAlarm] creates the timer. *)
Definition wants_timer (s : Settings) : bool :=
  negb (paused s) && (intervalMin s >? 0)%Z.

(** No alarm, or the tick alarm alone. *)
Definition at_most_tick (w : Chrome) : Prop :=
  alarms w = ∅ ∨ ∃ period, alarms w = {[TICK := period]}.

End scheduler_vocabulary.

Section text_source_vocabulary.
Import TextSource.

(** No selection probe contributes any text. *)
Definition no_selection (doc : Document) : Prop :=
  (∀ s, windowSelection doc = Some s → trim s = []) ∧
  probe_text (cmSelection doc) = [] ∧
  Forall (λ p, probe_text p = []) (cmAltSelections doc) ∧
  probe_text (aceSelection doc) = [] ∧
  Forall (λ p, probe_text p = []) (editableRanges doc).

End text_source_vocabulary.

(** [x] may stand before [y]. *)
Definition may_precede {A} (cmp : A → A → Z) (x y : A) : Prop :=
  (cmp x y ≤ 0)%Z.

Section cache_vocabulary.
Import SummaryCache.

Section with_lower.
Variable toLowerCase : jsstring → jsstring.

(** The overlap score of an entry against the selected tokens. *)
Definition score (sel : list jsstring) (e : SummaryEntry) : Z :=
  overlap sel (tokenize toLowerCase (text e)).

End with_lower.

(** [toLowerCase] on text within Basic Latin, where it only moves the
    capital letters. *)
Definition toLowerCase_latin (s : jsstring) : jsstring :=
  (λ c, if (65 <=? c)%Z && (c <=? 90)%Z then (c + 32)%Z else c) <$> s.

(** Every entry sits under its own section key and holds a digest. *)
Definition well_keyed (o : Summaries) : Prop :=
  ∀ k e, o !! k = Some e → sectionKey e = k ∧ text e ≠ [].

(** The keys whose entries the cap keeps. *)
Definition keepSet (o : Summaries) : list Z :=
  sectionKey <$> take maxEntries (js_sort by_recency (Object_values o)).

(** One completed call: the text sampled, what the summarization request
    resolved to, and the time of the write. *)
Record Call : Type := {
  sampled : jsstring;
  fetched : Result ModelClient.Response;
  clock : Z;
}.

Definition apply_call (o : Summaries) (c : Call) : Summaries :=
  stored_after o (maybeUpdateSummary (sampled c) o (fetched c) (clock c)).

(** The table of a document after a history of calls, starting from the
    empty table that [loadSummaries] reports for a new document. *)
Definition replay (history : list Call) : Summaries :=
  foldl apply_call ∅ history.

(** A response carrying a digest, and thirteen calls on different texts at
    successive times. *)
Definition digest_response (digest : string) : Result ModelClient.Response :=
  Ok {| ModelClient.ok := true; ModelClient.status := 200;
        ModelClient.body := None;
        ModelClient.json :=
          Ok (JObj [(str "message",
                     JObj [(str "content", JStr (str digest))])]) |}.

Definition thirteen_calls : list Call :=
  imap (λ i section,
          {| sampled := str section;
             fetched := digest_response "A short digest. ";
             clock := 1000 + Z.of_nat i |})
       ["Abstract"; "Introduction"; "Background"; "Model"; "Method";
        "Data"; "Setup"; "Results"; "Ablation"; "Discussion"; "Limits";
        "Related work"; "Conclusion"]%string.

End cache_vocabulary.

(** The response of a stream that delivers these chunks. *)
Definition streaming (status : Z) (chunks : list jsstring)
  : Result ModelClient.Response :=
  Ok {| ModelClient.ok := true; ModelClient.status := status;
        ModelClient.body := Some chunks;
        ModelClient.json := Throw TypeError |}.

Section timer_vocabulary.
Import Scheduler.

(** The timer a configuration calls for. *)
Definition timer_for (s : Settings) : gmap string Z :=
  if wants_timer s then {[TICK := intervalMin s]} else ∅.

End timer_vocabulary.

(** The units of a numeral and the number it denotes. *)
Definition numeral (digits : list Z) : jsstring :=
  (λ d, 48 + d)%Z <$> digits.
Definition numeral_value (digits : list Z) : Z :=
  foldl (λ acc d, 10 * acc + d)%Z 0%Z digits.

Section viewport_vocabulary.
Import TextSource.
Local Open Scope Z_scope.

(** The selection probes in the order [grabEditorText] consults them. *)
Definition probes (doc : Document) : list Probe :=
  [match windowSelection doc with Some s => Returned s | None => Absent end;
   cmSelection doc] ++
  cmAltSelections doc ++ [aceSelection doc] ++ editableRanges doc.

(** The line at position [k] lies in the viewport. *)
Definition in_view_at (scroller : Scroller) (allLines : list Line) (k : nat)
  : Prop :=
  ∃ l, allLines !! k = Some l ∧
       in_view (scrollTop scroller)
               (scrollTop scroller + clientHeight scroller) l = true.

(** The text of the lines at positions [b] to [e - 1]. *)
Definition lines_text (allLines : list Line) (b e : Z) : jsstring :=
  join_lines (innerText <$> slice b e allLines).

End viewport_vocabulary.

(** * Properties *)

(** ** Strings *)

Section string_facts.
Local Open Scope Z_scope.

Lemma trimStart_app_solid (p : jsstring) t r :
  is_whitespace t = false → trimStart (p ++ t :: r) = trimStart p ++ t :: r.
Proof.
  intros Ht. induction p as [|c p IH]; simpl.
  - by rewrite Ht.
  - destruct (is_whitespace c); [exact IH | done].
Qed.

Lemma trimStart_head (s : jsstring) :
  match trimStart s with c :: _ => is_whitespace c = false | [] => True end.
Proof.
  induction s as [|c s IH]; simpl; [done|].
  destruct (is_whitespace c) eqn:Hc; [exact IH | done].
Qed.

Lemma trimStart_solid (s : jsstring) :
  match s with c :: _ => is_whitespace c = false | [] => True end →
  trimStart s = s.
Proof. destruct s as [|c s]; simpl; [done|]. by intros ->. Qed.

Lemma trimEnd_snoc_solid (x : jsstring) c :
  is_whitespace c = false → trimEnd (x ++ [c]) = x ++ [c].
Proof.
  intros Hc. unfold trimEnd. rewrite reverse_snoc. simpl. rewrite Hc.
  by rewrite reverse_cons, reverse_involutive.
Qed.

Lemma trimStart_suffix (s : jsstring) : trimStart s `suffix_of` s.
Proof.
  induction s as [|c s IH]; simpl; [done|].
  destruct (is_whitespace c); [by apply suffix_cons_r | done].
Qed.

Lemma trimEnd_prefix (s : jsstring) : trimEnd s `prefix_of` s.
Proof.
  unfold trimEnd. destruct (trimStart_suffix (reverse s)) as [k Hk].
  exists (reverse k). apply (inj reverse).
  by rewrite reverse_app, !reverse_involutive.
Qed.

Lemma lastIndexOf_from_app c (a b : jsstring) i acc :
  lastIndexOf_from c (a ++ b) i acc =
  lastIndexOf_from c b (i + Z.of_nat (length a)) (lastIndexOf_from c a i acc).
Proof.
  revert i acc. induction a as [|x a IH]; intros i acc; simpl.
  - f_equal. lia.
  - rewrite IH. f_equal. lia.
Qed.

Lemma lastIndexOf_from_absent c (s : jsstring) i acc :
  Forall (λ x, x ≠ c) s → lastIndexOf_from c s i acc = acc.
Proof.
  intros H. revert i acc. induction H as [|x s Hx _ IH]; intros i acc; simpl.
  - done.
  - rewrite IH. by destruct (Z.eqb_spec x c).
Qed.

Lemma lastIndexOf_from_bound c (s : jsstring) i acc :
  -1 ≤ acc < i →
  -1 ≤ lastIndexOf_from c s i acc < i + Z.of_nat (length s).
Proof.
  revert i acc. induction s as [|x s IH]; intros i acc H; simpl.
  - lia.
  - destruct (x =? c).
    + specialize (IH (i + 1) i). lia.
    + specialize (IH (i + 1) acc). lia.
Qed.

Lemma lastIndexOf_bound c (s : jsstring) :
  -1 ≤ lastIndexOf c s < Z.of_nat (length s).
Proof.
  unfold lastIndexOf. pose proof (lastIndexOf_from_bound c s 0 (-1)). lia.
Qed.

(** The last occurrence, when the tail has none. *)
Lemma lastIndexOf_split c (p : jsstring) t rest :
  Forall (λ x, x ≠ c) rest →
  lastIndexOf c (p ++ t :: rest) =
  if t =? c then Z.of_nat (length p) else lastIndexOf c p.
Proof.
  intros H. unfold lastIndexOf. rewrite lastIndexOf_from_app. simpl.
  rewrite lastIndexOf_from_absent by done. by rewrite Z.add_0_l.
Qed.

(** Every list either avoids a property or has a last element with it. *)
Lemma last_witness {A} (P : A → bool) (s : list A) :
  Forall (λ x, P x = false) s ∨
  ∃ p t rest,
    s = p ++ t :: rest ∧ P t = true ∧ Forall (λ x, P x = false) rest.
Proof.
  induction s as [|c s [IH | (p & t & rest & -> & Ht & Hrest)]].
  - by left.
  - destruct (P c) eqn:Hc.
    + right. by exists [], c, s.
    + left. by constructor.
  - right. by exists (c :: p), t, rest.
Qed.

(** Every list splits into its longest prefix with a property and a rest
    that does not start with it. *)
Lemma longest_run {A} (P : A → bool) (s : list A) :
  ∃ run w, s = run ++ w ∧ Forall (λ x, P x = true) run ∧
           match w with c :: _ => P c = false | [] => True end.
Proof.
  induction s as [|c s (run & w & -> & Hrun & Hw)].
  - by exists [], [].
  - destruct (P c) eqn:Hc.
    + exists (c :: run), w. split_and!; [done | by constructor | done].
    + exists [], (c :: run ++ w). by split_and!.
Qed.

End string_facts.

(** ** Sentence completion *)

Section sentence_facts.
Import Repair.
Local Open Scope Z_scope.

(** A trailing partial sentence is dropped; closers behind the terminal
    mark are kept; a text without a terminal mark is left alone. *)
Example complete_sentences_cut :
  ensureCompleteSentences (str "  Good (so far.) But then") =
  str "Good (so far.)".
Proof. by vm_compute. Qed.

Example complete_sentences_plain :
  ensureCompleteSentences (str "  no terminal mark here ") =
  str "  no terminal mark here ".
Proof. by vm_compute. Qed.

Lemma is_terminal_cases c :
  is_terminal c = true → c = 46 ∨ c = 33 ∨ c = 63.
Proof.
  unfold is_terminal, terminals. simpl. rewrite !orb_true_iff.
  intros [H|[H|[H|H]]]; try apply Z.eqb_eq in H; auto. done.
Qed.

Lemma is_closer_cases c :
  is_closer c = true →
  c = 41 ∨ c = 93 ∨ c = 125 ∨ c = 8221 ∨ c = 8217 ∨ c = 34 ∨ c = 39.
Proof.
  unfold is_closer, closers. simpl. rewrite !orb_true_iff.
  intros H. repeat (destruct H as [H|H]; [apply Z.eqb_eq in H; auto 10|]).
  done.
Qed.

Lemma terminal_solid c : is_terminal c = true → is_whitespace c = false.
Proof. intros H. by destruct (is_terminal_cases c H) as [->|[->| ->]]. Qed.

Lemma closer_solid c : is_closer c = true → is_whitespace c = false.
Proof.
  intros H. destruct (is_closer_cases c H) as [->|[->|[->|[->|[->|[->| ->]]]]]];
    done.
Qed.

Lemma closer_not_terminal c : is_closer c = true → is_terminal c = false.
Proof.
  intros H. destruct (is_closer_cases c H) as [->|[->|[->|[->|[->|[->| ->]]]]]];
    done.
Qed.

Lemma no_terminal_avoids (s : jsstring) t :
  is_terminal t = true → no_terminal s → Forall (λ x, x ≠ t) s.
Proof.
  intros Ht H. eapply Forall_impl; [exact H|]. intros x Hx ->. congruence.
Qed.

Lemma last_terminal_none (s : jsstring) :
  no_terminal s → last_terminal s = -1.
Proof.
  intros H. unfold last_terminal, terminals, lastIndexOf. simpl.
  rewrite !lastIndexOf_from_absent; [done|..];
    by apply no_terminal_avoids.
Qed.

Lemma last_terminal_split (p : jsstring) t rest :
  is_terminal t = true → no_terminal rest →
  last_terminal (p ++ t :: rest) = Z.of_nat (length p).
Proof.
  intros Ht Hrest. unfold last_terminal, terminals. simpl.
  rewrite !lastIndexOf_split by (by apply no_terminal_avoids).
  pose proof (lastIndexOf_bound 46 p). pose proof (lastIndexOf_bound 33 p).
  pose proof (lastIndexOf_bound 63 p).
  assert (∀ a b : Z, (if a >? b then a else b) = a `max` b) as Hmax
    by (intros a b; destruct (Z.gtb_spec a b); lia).
  destruct (is_terminal_cases t Ht) as [->|[->| ->]]; simpl;
    rewrite !Hmax; lia.
Qed.

Lemma skip_closers_run (a cl w : jsstring) fuel :
  all_closers cl → closer_free_start w → (length cl ≤ fuel)%nat →
  skip_closers (a ++ cl ++ w) (length a) fuel = (length a + length cl)%nat.
Proof.
  intros Hcl Hw. revert a fuel.
  induction Hcl as [|c cl Hc _ IH]; intros a fuel Hfuel; simpl in *.
  - destruct fuel as [|fuel]; simpl; [lia|].
    rewrite lookup_app_r, Nat.sub_diag by lia.
    destruct w as [|c w]; simpl; [lia|]. rewrite Hw. lia.
  - destruct fuel as [|fuel]; [lia|]. simpl.
    rewrite lookup_app_r, Nat.sub_diag by lia. simpl. rewrite Hc.
    replace (a ++ c :: cl ++ w) with ((a ++ [c]) ++ cl ++ w)
      by (by rewrite <- app_assoc).
    replace (S (length a)) with (length (a ++ [c]))
      by (rewrite length_app; simpl; lia).
    rewrite IH by lia. rewrite length_app. simpl. lia.
Qed.

Lemma trimEnd_solid (s : jsstring) t cl :
  is_terminal t = true → all_closers cl →
  trimEnd (s ++ t :: cl) = s ++ t :: cl.
Proof.
  intros Ht Hcl. destruct cl as [|c cl _] using rev_ind.
  - apply trimEnd_snoc_solid. by apply terminal_solid.
  - replace (s ++ t :: cl ++ [c]) with ((s ++ t :: cl) ++ [c])
      by (by rewrite <- app_assoc).
    apply trimEnd_snoc_solid. apply closer_solid.
    apply Forall_app in Hcl as [_ Hc]. by inversion Hc.
Qed.

(** The text cut after its last terminal mark and the closers behind it. *)
Lemma ensureCompleteSentences_split (p : jsstring) t cl w :
  is_terminal t = true → all_closers cl → closer_free_start w →
  no_terminal w →
  ensureCompleteSentences (p ++ t :: cl ++ w) = trimStart p ++ t :: cl.
Proof.
  intros Ht Hcl Hw Hnw. unfold ensureCompleteSentences.
  assert (truthy_str (p ++ t :: cl ++ w) = true) as -> by (by destruct p).
  simpl. rewrite last_terminal_split; [|done|].
  2:{ apply Forall_app. split; [|done].
      eapply Forall_impl; [exact Hcl|]. apply closer_not_terminal. }
  destruct (Z.eqb_spec (Z.of_nat (length p)) (-1)) as [?|_]; [lia|].
  replace (Z.to_nat (Z.of_nat (length p) + 1)) with (length (p ++ [t]))
    by (rewrite length_app; simpl; lia).
  replace (p ++ t :: cl ++ w) with ((p ++ [t]) ++ cl ++ w)
    by (by rewrite <- app_assoc).
  rewrite skip_closers_run; [|done|done|rewrite !length_app; lia].
  rewrite app_assoc, <- length_app, take_app_length.
  rewrite <- app_assoc. simpl. unfold trim.
  rewrite trimStart_app_solid by (by apply terminal_solid).
  by apply trimEnd_solid.
Qed.

Lemma ensureCompleteSentences_no_terminal (s : jsstring) :
  no_terminal s → ensureCompleteSentences s = s.
Proof.
  intros H. unfold ensureCompleteSentences.
  destruct (truthy_str s); simpl; [|done].
  by rewrite last_terminal_none.
Qed.

Lemma ensureCompleteSentences_shape (s : jsstring) :
  (no_terminal s ∧ ensureCompleteSentences s = s) ∨
  completed (ensureCompleteSentences s).
Proof.
  destruct (last_witness is_terminal s)
    as [H | (p & t & rest & -> & Ht & Hrest)].
  - left. split; [done | by apply ensureCompleteSentences_no_terminal].
  - right. destruct (longest_run is_closer rest) as (cl & w & -> & Hcl & Hw).
    apply Forall_app in Hrest as [_ Hnw].
    rewrite ensureCompleteSentences_split by done.
    exists (trimStart p), t, cl. split_and!; try done.
    pose proof (trimStart_head p) as Hh. destruct (trimStart p); simpl;
      [by apply terminal_solid | done].
Qed.

(** Text put behind a completed text is cut off again, as long as it holds
    no terminal mark and does not continue the closers. *)
Lemma ensureCompleteSentences_stable (u w : jsstring) :
  completed u → no_terminal w → closer_free_start w →
  ensureCompleteSentences (u ++ w) = u.
Proof.
  intros (p & t & cl & -> & Ht & Hcl & Hsolid) Hnw Hw.
  rewrite <- app_assoc. simpl.
  rewrite ensureCompleteSentences_split by done.
  f_equal. apply trimStart_solid. by destruct p.
Qed.

Lemma completed_nonempty (u : jsstring) : completed u → u ≠ [].
Proof. intros (p & t & cl & -> & _). by destruct p. Qed.

End sentence_facts.

(** ** Counting occurrences of a literal *)

Section count_facts.

Lemma starts_with_length (pat s : jsstring) :
  starts_with pat s = true → length pat ≤ length s.
Proof.
  revert s. induction pat as [|p pat IH]; intros [|c s]; simpl; try lia.
  intros [_ H]%andb_true_iff. apply IH in H. lia.
Qed.

Lemma starts_with_self (pat rest : jsstring) :
  starts_with pat (pat ++ rest) = true.
Proof. induction pat as [|p pat IH]; simpl; [done|]. by rewrite Z.eqb_refl. Qed.

Lemma starts_with_take (pat s : jsstring) n :
  starts_with pat (take n s) = true → starts_with pat s = true.
Proof.
  revert s n. induction pat as [|p pat IH]; intros [|c s] [|n]; simpl; try done.
  intros [-> H]%andb_true_iff. simpl. by eapply IH.
Qed.

Lemma starts_with_take_ge (pat s : jsstring) n :
  starts_with pat s = true → length pat ≤ n →
  starts_with pat (take n s) = true.
Proof.
  revert s n. induction pat as [|p pat IH]; intros [|c s] [|n]; simpl;
    try done; try lia.
  intros [-> H]%andb_true_iff Hn. simpl. apply IH; [done | lia].
Qed.

(** An occurrence cannot run across a unit the literal does not contain. *)
Lemma starts_with_sep (pat x : jsstring) c y :
  c ∉ pat → starts_with pat (x ++ c :: y) = starts_with pat x.
Proof.
  revert x. induction pat as [|p pat IH]; intros x Hc; [by destruct x|].
  apply not_elem_of_cons in Hc as [Hne Hc].
  destruct x as [|a x]; simpl.
  - destruct (Z.eqb_spec p c); [congruence | done].
  - by rewrite IH.
Qed.

Lemma count_from_short (pat s : jsstring) k :
  length s < length pat → count_from pat k s = 0.
Proof.
  revert k. induction s as [|c s IH]; intros k Hlen; simpl in *; [done|].
  destruct k as [|k]; [|apply IH; lia].
  destruct (starts_with pat (c :: s)) eqn:Hs.
  - apply starts_with_length in Hs. simpl in Hs. lia.
  - apply IH. lia.
Qed.

Lemma count_from_skip (pat a rest : jsstring) :
  count_from pat (length a) (a ++ rest) = count_from pat 0 rest.
Proof. induction a as [|c a IH]; simpl; [done | exact IH]. Qed.

Lemma count_from_sep (pat x : jsstring) k c y :
  c ∉ pat → pat ≠ [] → k ≤ length x →
  count_from pat k (x ++ c :: y) = count_from pat k x + count_matches pat y.
Proof.
  intros Hc Hpat. revert k. induction x as [|a x IH]; intros k Hk; simpl in *.
  - assert (k = 0) as -> by lia.
    assert (starts_with pat (c :: y) = false) as ->; [|done].
    destruct pat as [|p pat]; [done|]. simpl.
    apply not_elem_of_cons in Hc as [Hne _].
    destruct (Z.eqb_spec p c); [congruence | done].
  - destruct k as [|k]; [|apply IH; lia].
    change (a :: x ++ c :: y) with ((a :: x) ++ c :: y).
    rewrite starts_with_sep by done.
    destruct (starts_with pat (a :: x)) eqn:Hs.
    + apply starts_with_length in Hs. simpl in Hs.
      rewrite IH by lia. done.
    + apply IH. lia.
Qed.

Lemma count_matches_sep (pat x : jsstring) c y :
  c ∉ pat → pat ≠ [] →
  count_matches pat (x ++ c :: y) = count_matches pat x + count_matches pat y.
Proof. intros. apply count_from_sep; [done | done | lia]. Qed.

Lemma count_matches_here (pat rest : jsstring) :
  pat ≠ [] → count_matches pat (pat ++ rest) = S (count_matches pat rest).
Proof.
  intros Hpat. unfold count_matches.
  destruct pat as [|p pat]; [done|].
  change (count_from (p :: pat) 0 ((p :: pat) ++ rest)) with
    (if starts_with (p :: pat) ((p :: pat) ++ rest)
     then S (count_from (p :: pat) (length (p :: pat) - 1) (pat ++ rest))
     else count_from (p :: pat) 0 (pat ++ rest)).
  rewrite starts_with_self. simpl. rewrite Nat.sub_0_r.
  by rewrite count_from_skip.
Qed.

(** Units that differ from the first unit of the literal start nothing. *)
Lemma count_matches_pass h (pat a rest : jsstring) :
  Forall (λ c, c ≠ h) a →
  count_matches (h :: pat) (a ++ rest) = count_matches (h :: pat) rest.
Proof.
  induction 1 as [|c a Hc _ IH]; [done|]. unfold count_matches in *. simpl.
  destruct (Z.eqb_spec h c); [congruence | done].
Qed.

Lemma clash_starts_with (pat q rest : jsstring) :
  clash pat q = true → starts_with pat (q ++ rest) = false.
Proof.
  revert q. induction pat as [|p pat IH]; intros [|c q]; simpl; try done.
  destruct (Z.eqb_spec p c); simpl; [apply IH | done].
Qed.

Lemma clash_same_length (pat q : jsstring) :
  clash pat q = false → length pat = length q → pat = q.
Proof.
  revert q. induction pat as [|p pat IH]; intros [|c q]; simpl; try done.
  intros [Hpc H]%orb_false_iff [=]. apply negb_false_iff, Z.eqb_eq in Hpc.
  f_equal; [done | by apply IH].
Qed.

Lemma count_from_take_le (pat s : jsstring) k n :
  count_from pat k (take n s) ≤ count_from pat k s.
Proof.
  revert k n. induction s as [|c s IH]; intros k n.
  - by rewrite take_nil.
  - destruct n as [|n]; [simpl; lia|]. rewrite firstn_cons.
    destruct k as [|k]; [|apply IH].
    change (count_from pat 0 (c :: take n s)) with
      (if starts_with pat (c :: take n s)
       then S (count_from pat (length pat - 1) (take n s))
       else count_from pat 0 (take n s)).
    change (count_from pat 0 (c :: s)) with
      (if starts_with pat (c :: s)
       then S (count_from pat (length pat - 1) s)
       else count_from pat 0 s).
    destruct (starts_with pat (c :: take n s)) eqn:Hshort.
    + change (c :: take n s) with (take (S n) (c :: s)) in Hshort.
      apply starts_with_take in Hshort. rewrite Hshort.
      apply le_n_S, IH.
    + destruct (starts_with pat (c :: s)) eqn:Hlong; [|apply IH].
      rewrite count_from_short; [lia|].
      destruct (decide (length pat ≤ S n)) as [Hle|Hgt].
      * apply (starts_with_take_ge _ _ (S n)) in Hlong; [|done].
        simpl in Hlong. congruence.
      * rewrite length_take. lia.
Qed.

Lemma count_matches_prefix_le (pat s t : jsstring) :
  t `prefix_of` s → count_matches pat t ≤ count_matches pat s.
Proof.
  intros [k ->]. rewrite <- (take_app_length t k) at 1.
  apply count_from_take_le.
Qed.

End count_facts.

(** ** Environment completion *)

Section latex_facts.
Import Repair.

(** Environments are closed in the order of the list, each block on a
    line of its own. *)
Example latex_completeness_two :
  ensureLatexCompleteness
    (str "\begin{table}\begin{itemize}\begin{itemize}\end{itemize}") =
  str "\begin{table}\begin{itemize}\begin{itemize}\end{itemize}" ++ [LF] ++
  str "\end{itemize}" ++ [LF] ++ str "\end{table}".
Proof. by vm_compute. Qed.

Lemma markers_plain : forallb plain_marker markers = true.
Proof. by vm_compute. Qed.

Lemma markers_apart :
  forallb (λ pat, forallb (λ q, clash pat q || (length pat =? length q))
                          markers) markers = true.
Proof. by vm_compute. Qed.

Lemma open_marker_in env : env ∈ environments → open_marker env ∈ markers.
Proof. intros. apply elem_of_app. left. by apply list_elem_of_fmap_2. Qed.

Lemma close_marker_in env :
  env ∈ environments → close_marker env ∈ markers.
Proof. intros. apply elem_of_app. right. by apply list_elem_of_fmap_2. Qed.

Lemma marker_shape pat :
  pat ∈ markers →
  ∃ pat', pat = (92%Z :: pat') ∧ Forall (λ c, c ≠ 92%Z) pat' ∧
          (LF ∉ pat) ∧ no_terminal pat.
Proof.
  intros Hin. pose proof markers_plain as H.
  rewrite forallb_forall in H. apply list_elem_of_In, H in Hin.
  destruct pat as [|h pat']; [done|]. unfold plain_marker in Hin.
  apply andb_true_iff in Hin as [[Hh Htail]%andb_true_iff Hall].
  apply Z.eqb_eq in Hh as ->. exists pat'. split; [done|].
  rewrite forallb_forall in Htail. rewrite forallb_forall in Hall.
  split_and!.
  - apply Forall_forall. intros c Hc%list_elem_of_In%Htail ->. done.
  - intros Hc%list_elem_of_In%Hall. done.
  - apply Forall_forall. intros c Hc%list_elem_of_In%Hall.
    apply andb_true_iff in Hc as [_ Hc]. by apply negb_true_iff.
Qed.

Lemma marker_cases pat q :
  pat ∈ markers → q ∈ markers → pat = q ∨ clash pat q = true.
Proof.
  intros Hp Hq. pose proof markers_apart as H.
  rewrite forallb_forall in H. apply list_elem_of_In, H in Hp.
  rewrite forallb_forall in Hp. apply list_elem_of_In, Hp in Hq.
  destruct (clash pat q) eqn:Hclash; [by right|]. left.
  apply clash_same_length; [done|]. by apply Nat.eqb_eq.
Qed.

Lemma count_in_repeat pat q n (rest : jsstring) :
  pat ∈ markers → q ∈ markers →
  count_matches pat (repeat_str q n ++ rest) =
  (if decide (pat = q) then n else 0) + count_matches pat rest.
Proof.
  intros Hp Hq. induction n as [|n IH].
  - simpl. by destruct (decide (pat = q)).
  - unfold repeat_str in *. simpl. rewrite <- app_assoc.
    destruct (decide (pat = q)) as [->|Hne].
    + rewrite count_matches_here, IH; [done|].
      by destruct (marker_shape q Hq) as (? & -> & _).
    + destruct (marker_cases pat q Hp Hq) as [?|Hclash]; [done|].
      destruct (marker_shape q Hq) as (q' & -> & Hq' & _).
      destruct (marker_shape pat Hp) as (pat' & -> & _).
      rewrite <- IH. unfold count_matches at 1.
      change (count_from (92%Z :: pat') 0
                ((92%Z :: q') ++ concat (replicate n (92%Z :: q')) ++ rest))
        with (if starts_with (92%Z :: pat')
                   ((92%Z :: q') ++ concat (replicate n (92%Z :: q')) ++ rest)
              then S (count_from (92%Z :: pat') (length (92%Z :: pat') - 1)
                        (q' ++ concat (replicate n (92%Z :: q')) ++ rest))
              else count_matches (92%Z :: pat')
                     (q' ++ concat (replicate n (92%Z :: q')) ++ rest)).
      rewrite clash_starts_with by done.
      by apply count_matches_pass.
Qed.

Lemma count_after_block pat env n (x : jsstring) :
  pat ∈ markers → env ∈ environments →
  count_matches pat (x ++ closing_block env n) =
  count_matches pat x + (if decide (pat = close_marker env) then n else 0).
Proof.
  intros Hp He. unfold closing_block.
  destruct n as [|n]; simpl.
  - rewrite app_nil_r. destruct (decide _); lia.
  - destruct (marker_shape pat Hp) as (pat' & Hpat & _ & HLF & _).
    rewrite count_matches_sep; [|done|by rewrite Hpat].
    f_equal. rewrite <- (app_nil_r (repeat_str _ _)).
    rewrite count_in_repeat; [|done|by apply close_marker_in].
    unfold count_matches. simpl. lia.
Qed.

Lemma close_environment_block (y env : jsstring) :
  close_environment y env = y ++ closing_block env (deficit env y).
Proof.
  unfold close_environment, closing_block, deficit.
  destruct (Nat.ltb_spec (count_matches (close_marker env) y)
              (count_matches (open_marker env) y)) as [Hlt|Hge].
  - destruct (Nat.ltb_spec 0 (count_matches (open_marker env) y -
                               count_matches (close_marker env) y)); [done|lia].
  - replace (count_matches (open_marker env) y -
             count_matches (close_marker env) y) with 0 by lia.
    simpl. by rewrite app_nil_r.
Qed.

Lemma open_not_close (env env' : jsstring) :
  open_marker env' ≠ close_marker env.
Proof. unfold open_marker, close_marker. by vm_compute. Qed.

Lemma close_marker_inj (env env' : jsstring) :
  close_marker env' = close_marker env → env' = env.
Proof.
  unfold close_marker. intros H. apply app_inv_head in H.
  by apply app_inv_tail in H.
Qed.

Lemma open_count_kept (env env' y : jsstring) :
  env ∈ environments → env' ∈ environments →
  count_matches (open_marker env') (close_environment y env) =
  count_matches (open_marker env') y.
Proof.
  intros He He'. rewrite close_environment_block.
  rewrite count_after_block; [|by apply open_marker_in|done].
  destruct (decide _) as [Heq|_]; [|lia]. by apply open_not_close in Heq.
Qed.

Lemma close_count_grows (env env' y : jsstring) :
  env ∈ environments → env' ∈ environments →
  count_matches (close_marker env') (close_environment y env) =
  count_matches (close_marker env') y +
  (if decide (env' = env) then deficit env y else 0).
Proof.
  intros He He'. rewrite close_environment_block.
  rewrite count_after_block; [|by apply close_marker_in|done].
  destruct (decide (close_marker env' = close_marker env)) as [Heq|Hne];
    destruct (decide (env' = env)) as [->|Hne']; try done.
  by apply close_marker_inj in Heq.
Qed.

Lemma close_environment_balances (env y : jsstring) :
  env ∈ environments → balanced env (close_environment y env).
Proof.
  intros He. unfold balanced.
  rewrite open_count_kept, close_count_grows by done.
  rewrite decide_True by done. unfold deficit. lia.
Qed.

Lemma close_environment_keeps (env env' y : jsstring) :
  env ∈ environments → env' ∈ environments →
  balanced env' y → balanced env' (close_environment y env).
Proof.
  intros He He'. unfold balanced.
  rewrite open_count_kept, close_count_grows by done. lia.
Qed.

Lemma close_environment_id (env y : jsstring) :
  balanced env y → close_environment y env = y.
Proof.
  unfold balanced, close_environment. intros H.
  by destruct (Nat.ltb_spec (count_matches (close_marker env) y)
                 (count_matches (open_marker env) y)); [lia|].
Qed.

Lemma fold_close_balanced (envs : list jsstring) (env y : jsstring) :
  envs ⊆ environments → env ∈ environments →
  env ∈ envs ∨ balanced env y →
  balanced env (foldl close_environment y envs).
Proof.
  revert y. induction envs as [|e envs IH]; intros y Hsub He Hcase; simpl.
  - destruct Hcase as [Hin|H]; [by apply elem_of_nil in Hin | done].
  - assert (e ∈ environments) as Hein by (apply Hsub; left).
    apply IH; [by intros z Hz; apply Hsub; right | done |].
    destruct Hcase as [[->|Hin]%elem_of_cons | H].
    + right. by apply close_environment_balances.
    + by left.
    + right. by apply close_environment_keeps.
Qed.

Lemma fold_close_id (envs : list jsstring) (y : jsstring) :
  (∀ env, env ∈ envs → balanced env y) →
  foldl close_environment y envs = y.
Proof.
  induction envs as [|e envs IH]; intros H; simpl; [done|].
  rewrite close_environment_id by (apply H; left). apply IH.
  intros env Hin. apply H. by right.
Qed.

Lemma ensureLatexCompleteness_fold (x : jsstring) :
  ensureLatexCompleteness x = foldl close_environment x environments.
Proof. destruct x; [by vm_compute | done]. Qed.

Lemma ensureLatexCompleteness_idem (x : jsstring) :
  ensureLatexCompleteness (ensureLatexCompleteness x) =
  ensureLatexCompleteness x.
Proof.
  rewrite (ensureLatexCompleteness_fold (ensureLatexCompleteness x)).
  apply fold_close_id. intros env He.
  rewrite ensureLatexCompleteness_fold.
  apply fold_close_balanced; [done | done | by left].
Qed.

Lemma closing_block_shape env n :
  env ∈ environments →
  no_terminal (closing_block env n) ∧
  match closing_block env n with
  | c :: _ => c = LF
  | [] => True
  end.
Proof.
  intros He. unfold closing_block. destruct n as [|n]; simpl.
  { split; [constructor | done]. }
  split; [|done]. constructor; [done|].
  destruct (marker_shape _ (close_marker_in env He)) as (_ & _ & _ & _ & Hnt).
  change (no_terminal (repeat_str (close_marker env) (S n))).
  unfold repeat_str. generalize (S n). intros m.
  induction m as [|m IH]; cbn [replicate concat]; [constructor|].
  by apply Forall_app.
Qed.

(** What environment completion adds holds no terminal mark and, if
    anything is added, starts with a line feed. *)
Lemma fold_close_suffix (envs : list jsstring) (x : jsstring) :
  envs ⊆ environments →
  ∃ w, foldl close_environment x envs = x ++ w ∧ no_terminal w ∧
       closer_free_start w.
Proof.
  revert x. induction envs as [|e envs IH]; intros x Hsub; simpl.
  - exists []. split_and!; [by rewrite app_nil_r | constructor | done].
  - assert (e ∈ environments) as Hein by (apply Hsub; left).
    destruct (IH (close_environment x e)) as (w & -> & Hw & Hstart);
      [by intros z Hz; apply Hsub; right|].
    rewrite close_environment_block, <- app_assoc.
    destruct (closing_block_shape e (deficit e x) Hein) as [Hnt Hhead].
    eexists. split; [done|]. split; [by apply Forall_app|].
    destruct (closing_block e (deficit e x)) as [|c b]; [done|].
    simpl in *. by subst c.
Qed.

Lemma ensureLatexCompleteness_suffix (x : jsstring) :
  ∃ w, ensureLatexCompleteness x = x ++ w ∧ no_terminal w ∧
       closer_free_start w.
Proof. rewrite ensureLatexCompleteness_fold. by apply fold_close_suffix. Qed.

End latex_facts.

(** ** The streaming decoder *)

Section stream_facts.
Import ModelClient.
Variable JSON_parse : jsstring → option JsValue.

Lemma extend_nil p : extend p [] = p.
Proof. destruct p. unfold extend. simpl. by rewrite !app_nil_r. Qed.

Lemma extend_app p ds ds' : extend (extend p ds) ds' = extend p (ds ++ ds').
Proof.
  unfold extend. simpl. by rewrite fmap_app, concat_app, !app_assoc.
Qed.

Lemma handle_fragment_extend (piece : jsstring) p :
  truthy_str (trim piece) = true →
  handle_fragment JSON_parse (trim piece) p =
  extend p (fragment_deltas JSON_parse piece).
Proof.
  intros H. unfold handle_fragment, fragment_deltas. rewrite H.
  destruct (JSON_parse (trim piece)) as [obj|]; [|by rewrite extend_nil].
  destruct (truthy (delta_of obj)); [|by rewrite extend_nil].
  unfold converts, extend, image. simpl.
  destruct (ToString (delta_of obj)) as [s|e] eqn:Hs; simpl.
  - by rewrite Hs, app_nil_r.
  - destruct p. simpl. by rewrite !app_nil_r.
Qed.

Lemma fragment_deltas_blank (piece : jsstring) :
  truthy_str (trim piece) = false → fragment_deltas JSON_parse piece = [].
Proof. intros H. unfold fragment_deltas. by rewrite H. Qed.

Lemma split_on_cut (s : jsstring) :
  split_on LF s = (cut_lines s).1 ++ [(cut_lines s).2].
Proof.
  induction s as [|x s IH]; simpl; [done|].
  destruct (cut_lines s) as [ls rem]. simpl in IH. rewrite IH.
  destruct (x =? LF)%Z; [done|]. by destruct ls.
Qed.

Lemma cut_lines_plain (s : jsstring) : LF ∉ s → cut_lines s = ([], s).
Proof.
  induction s as [|x s IH]; intros H; simpl; [done|].
  apply not_elem_of_cons in H as [Hx Hs]. rewrite IH by done.
  destruct (Z.eqb_spec x LF); [congruence | done].
Qed.

Lemma cut_lines_first (a b : jsstring) :
  LF ∉ a →
  cut_lines (a ++ LF :: b) = (a :: (cut_lines b).1, (cut_lines b).2).
Proof.
  induction a as [|x a IH]; intros H; simpl.
  - by destruct (cut_lines b).
  - apply not_elem_of_cons in H as [Hx Ha]. rewrite IH by done.
    destruct (Z.eqb_spec x LF); [congruence | done].
Qed.

Lemma cut_lines_rem_plain (s : jsstring) : LF ∉ (cut_lines s).2.
Proof.
  induction s as [|x s IH]; simpl; [apply not_elem_of_nil|].
  destruct (cut_lines s) as [ls rem]. simpl in IH.
  destruct (Z.eqb_spec x LF); [done|].
  destruct ls; simpl; [|done]. by apply not_elem_of_cons.
Qed.

(** Lines are cut the same whether the text arrives whole or in two
    parts, the second joined to what the first left over. *)
Lemma cut_lines_app (a b : jsstring) :
  cut_lines (a ++ b) =
  ((cut_lines a).1 ++ (cut_lines ((cut_lines a).2 ++ b)).1,
   (cut_lines ((cut_lines a).2 ++ b)).2).
Proof.
  induction a as [|x a IH]; simpl.
  - by destruct (cut_lines b).
  - rewrite IH. destruct (cut_lines a) as [ls rem]. simpl.
    destruct (cut_lines (rem ++ b)) as [ls' rem'] eqn:Hcut. simpl.
    destruct (x =? LF)%Z eqn:Hx; simpl; [by rewrite Hcut|].
    destruct ls as [|l ls]; simpl; [|by rewrite Hcut].
    rewrite Hcut, Hx. by destruct ls'.
Qed.

Lemma indexOf_from_bound c (s : jsstring) i :
  (0 ≤ i → indexOf_from c s i = -1 ∨ i ≤ indexOf_from c s i)%Z.
Proof.
  revert i. induction s as [|x s IH]; intros i Hi; simpl; [by left|].
  destruct (x =? c)%Z; [right; lia|].
  destruct (IH (i + 1)%Z) as [?|?]; [lia | by left | right; lia].
Qed.

Lemma indexOf_cases (s : jsstring) :
  (indexOf LF s = (-1)%Z ∧ (LF ∉ s)) ∨
  ∃ a b,
    s = a ++ LF :: b ∧ (LF ∉ a) ∧ indexOf LF s = Z.of_nat (length a).
Proof.
  unfold indexOf.
  assert (∀ i, (0 ≤ i)%Z →
    (indexOf_from LF s i = (-1)%Z ∧ (LF ∉ s)) ∨
    ∃ a b, s = a ++ LF :: b ∧ (LF ∉ a) ∧
           indexOf_from LF s i = (i + Z.of_nat (length a))%Z) as H.
  { induction s as [|x s IH]; intros i Hi; simpl.
    - left. split; [done | apply not_elem_of_nil].
    - destruct (Z.eqb_spec x LF) as [->|Hne].
      + right. exists [], s. split_and!; [done | apply not_elem_of_nil |].
        simpl. lia.
      + destruct (IH (i + 1)%Z) as [[H1 H2] | (a & b & -> & Ha & H1)]; [lia|..].
        * left. split; [done | by apply not_elem_of_cons].
        * right. exists (x :: a), b.
          split_and!; [done | by apply not_elem_of_cons |].
          rewrite H1. simpl. lia. }
  destruct (H 0%Z) as [?|(a & b & ? & ? & Hidx)]; [lia | by left |].
  right. exists a, b. split_and!; [done | done |]. rewrite Hidx. lia.
Qed.

(** The inner loop handles the complete lines of the buffer and leaves
    what follows the last line feed; its fuel is never exhausted. *)
Lemma drain_lines_cut fuel (buffer : jsstring) p :
  length buffer ≤ fuel →
  drain_lines JSON_parse fuel buffer p =
  ((cut_lines buffer).2,
   extend p ((cut_lines buffer).1 ≫= fragment_deltas JSON_parse)).
Proof.
  revert buffer p. induction fuel as [|fuel IH]; intros buffer p Hlen.
  - destruct buffer; [|simpl in Hlen; lia]. simpl. by rewrite extend_nil.
  - simpl. destruct (indexOf_cases buffer)
      as [[Hidx Hplain] | (a & b & -> & Ha & Hidx)]; rewrite Hidx.
    + simpl. rewrite cut_lines_plain by done. simpl. by rewrite extend_nil.
    + destruct (Z.geb_spec (Z.of_nat (length a)) 0) as [_|?]; [|lia].
      rewrite cut_lines_first by done.
      unfold slice_to, slice_from.
      rewrite Nat2Z.id, take_app_length.
      replace (Z.to_nat (Z.of_nat (length a) + 1)) with (length (a ++ [LF]))
        by (rewrite length_app; simpl; lia).
      replace (a ++ LF :: b) with ((a ++ [LF]) ++ b)
        by (by rewrite <- app_assoc).
      rewrite drop_app_length.
      rewrite length_app in Hlen. simpl in Hlen. simpl.
      destruct (truthy_str (trim a)) eqn:Hline; simpl.
      * rewrite handle_fragment_extend by done.
        rewrite IH by lia. by rewrite extend_app.
      * rewrite IH by lia. by rewrite fragment_deltas_blank.
Qed.

Lemma read_loop_cut (chunks : list jsstring) (seen : jsstring) p :
  read_loop JSON_parse chunks (cut_lines seen).2
    (extend p ((cut_lines seen).1 ≫= fragment_deltas JSON_parse)) =
  ((cut_lines (seen ++ concat chunks)).2,
   extend p ((cut_lines (seen ++ concat chunks)).1
               ≫= fragment_deltas JSON_parse)).
Proof.
  revert seen. induction chunks as [|value rest IH]; intros seen; simpl.
  - by rewrite app_nil_r.
  - rewrite drain_lines_cut by done. rewrite extend_app, <- bind_app.
    rewrite app_assoc, <- IH. by rewrite (cut_lines_app seen value).
Qed.

(** The chunks are decoded as one text, cut at line feeds: their
    boundaries do not matter, every delta is passed to [onDelta] once and
    in order, and the text returned is the deltas joined. *)
Lemma ollamaChatStream_run (res : Response) (chunks : list jsstring) :
  ok res = true → body res = Some chunks →
  ollamaChatStream JSON_parse (Ok res) =
  (Ok (concat (image <$> deltas_of JSON_parse (concat chunks))),
   deltas_of JSON_parse (concat chunks)).
Proof.
  intros Hok Hbody. unfold ollamaChatStream. rewrite Hok, Hbody. simpl.
  pose proof (read_loop_cut chunks [] {| full := []; calls := [] |}) as H.
  simpl in H. rewrite extend_nil in H. rewrite H. clear H.
  unfold deltas_of. rewrite split_on_cut.
  destruct (cut_lines (concat chunks)) as [ls rem]. simpl.
  rewrite bind_app. simpl. rewrite app_nil_r.
  unfold flush_remainder.
  destruct (truthy_str (trim rem)) eqn:Hrem.
  - rewrite handle_fragment_extend, extend_app by done. done.
  - rewrite (fragment_deltas_blank rem), app_nil_r by done. done.
Qed.

End stream_facts.

(** ** Output repair: the two passes together *)

Section repair_facts.
Import Repair.

Lemma environments_head :
  environments =
  itemize :: (str <$> ["enumerate"; "description"; "equation"; "align";
                       "figure"; "table"]%string).
Proof. reflexivity. Qed.

Lemma itemize_in : itemize ∈ environments.
Proof. rewrite environments_head. left. Qed.

Lemma whitespace_not_backslash c : is_whitespace c = true → c ≠ 92%Z.
Proof. by intros H ->. Qed.

Lemma count_trimStart pat (y : jsstring) :
  pat ∈ markers → count_matches pat (trimStart y) = count_matches pat y.
Proof.
  intros Hp. destruct (marker_shape pat Hp) as (pat' & -> & _).
  induction y as [|c y IH]; simpl; [done|].
  destruct (is_whitespace c) eqn:Hc; [|done].
  rewrite IH. symmetry. apply (count_matches_pass _ _ [c]).
  constructor; [by apply whitespace_not_backslash | constructor].
Qed.

Lemma count_trim_le pat (y : jsstring) :
  pat ∈ markers → count_matches pat (trim y) ≤ count_matches pat y.
Proof.
  intros Hp. unfold trim. rewrite <- (count_trimStart pat y Hp).
  apply count_matches_prefix_le, trimEnd_prefix.
Qed.

(** Sentence completion keeps a part of the text, so it creates no new
    occurrence of a marker. *)
Lemma count_ensureCompleteSentences_le pat (text : jsstring) :
  pat ∈ markers →
  count_matches pat (ensureCompleteSentences text) ≤ count_matches pat text.
Proof.
  intros Hp. unfold ensureCompleteSentences.
  destruct (truthy_str text); simpl; [|done].
  destruct (last_terminal text =? -1)%Z; [done|].
  etrans; [by apply count_trim_le|]. apply count_from_take_le.
Qed.

Lemma fold_close_other pat (envs : list jsstring) (y : jsstring) :
  pat ∈ markers → envs ⊆ environments →
  (∀ env, env ∈ envs → pat ≠ close_marker env) →
  count_matches pat (foldl close_environment y envs) = count_matches pat y.
Proof.
  intros Hp. revert y. induction envs as [|e envs IH]; intros y Hsub Hne; simpl.
  - done.
  - rewrite IH; [|by intros z Hz; apply Hsub; right
                  |by intros env Hin; apply Hne; right].
    rewrite close_environment_block, count_after_block;
      [|done|apply Hsub; left].
    rewrite decide_False; [lia|]. apply Hne. left.
Qed.

(** C3.  Output Repair, sentence completion followed by environment
    completion, is idempotent: repairing a repaired text changes
    nothing. *)
Theorem C3_repair_idempotent (text : jsstring) :
  repair (repair text) = repair text.
Proof.
  unfold repair.
  destruct (ensureLatexCompleteness_suffix (ensureCompleteSentences text))
    as (w & Hw & Hnt & Hstart).
  destruct (ensureCompleteSentences_shape text) as [[Hplain Hsame] | Hdone].
  - rewrite Hsame in *.
    rewrite (ensureCompleteSentences_no_terminal
               (ensureLatexCompleteness text)).
    + apply ensureLatexCompleteness_idem.
    + rewrite Hw. by apply Forall_app.
  - rewrite Hw at 1. by rewrite ensureCompleteSentences_stable.
Qed.

(** C4, as the code has it.  For every text with no [\end{itemize}], the
    repaired text is the sentence-completed text followed first by the
    closing block for [itemize], and it holds exactly as many
    [\end{itemize}] markers as the sentence-completed text holds
    [\begin{itemize}] markers.  That number is at most the number [N] of
    [\begin{itemize}] in the text, and it is [N] when the text has no
    terminal mark, so that sentence completion cuts nothing. *)
Theorem C4_repair_closes_kept_itemize (text : jsstring) :
  count_matches (close_marker itemize) text = 0 →
  let kept := ensureCompleteSentences text in
  let m := count_matches (open_marker itemize) kept in
  (∃ rest, repair text = kept ++ closing_block itemize m ++ rest) ∧
  count_matches (close_marker itemize) (repair text) = m ∧
  m ≤ count_matches (open_marker itemize) text ∧
  (no_terminal text → m = count_matches (open_marker itemize) text).
Proof.
  intros Hnone kept m.
  assert (count_matches (close_marker itemize) kept = 0) as Hkept.
  { pose proof (count_ensureCompleteSentences_le (close_marker itemize) text
                  (close_marker_in _ itemize_in)). fold kept in H. lia. }
  assert (deficit itemize kept = m) as Hdef by (unfold deficit; fold m; lia).
  unfold repair. fold kept.
  rewrite ensureLatexCompleteness_fold, environments_head.
  set (others := str <$> _).
  change (foldl close_environment kept (itemize :: others)) with
    (foldl close_environment (close_environment kept itemize) others).
  rewrite close_environment_block, Hdef.
  assert (others ⊆ environments) as Hsub
    by (rewrite environments_head; intros z Hz; by right).
  split_and!.
  - destruct (fold_close_suffix others (kept ++ closing_block itemize m) Hsub)
      as (w & -> & _). exists w. by rewrite <- app_assoc.
  - rewrite fold_close_other; [|by apply close_marker_in, itemize_in|done|].
    + rewrite count_after_block;
        [|by apply close_marker_in, itemize_in|apply itemize_in].
      rewrite decide_True by done. lia.
    + intros env Hin Heq. apply close_marker_inj in Heq. subst env.
      unfold others in Hin.
      repeat (apply elem_of_cons in Hin as [Heq|Hin]; [discriminate Heq|]).
      by apply elem_of_nil in Hin.
  - apply count_ensureCompleteSentences_le, open_marker_in, itemize_in.
  - intros Hplain. unfold m, kept.
    by rewrite ensureCompleteSentences_no_terminal.
Qed.

(** A text with one [\begin{itemize}] and no terminal mark gets one
    [\end{itemize}]. *)
Lemma C4_repair_closes_kept_itemize_witness :
  let text := str "\begin{itemize} \item first point" in
  count_matches (close_marker itemize) text = 0 ∧
  count_matches (close_marker itemize) (repair text) = 1.
Proof.
  intros text. split; [by vm_compute|].
  destruct (C4_repair_closes_kept_itemize text) as (_ & H & _);
    [by vm_compute|].
  rewrite H. by vm_compute.
Defined.

(** C4, as stated, fails: sentence completion runs first and may cut a
    [\begin{itemize}] off, and then nothing is appended for it. *)
Lemma C4_counterexample :
  let text := str "Add detail. \begin{itemize} \item unfinished" in
  count_matches (open_marker itemize) text = 1 ∧
  count_matches (close_marker itemize) text = 0 ∧
  repair text = str "Add detail." ∧
  count_matches (close_marker itemize) (repair text) = 0.
Proof. by vm_compute. Qed.

End repair_facts.

(** ** Model client *)

Section client_facts.
Import ModelClient.

(** C1, as the code has it.  The chunks of a streamed response are read
    as one text of newline-delimited fragments, wherever the chunk
    boundaries fall.  [onDelta] is invoked exactly once, in arrival order
    and before the call resolves, for every fragment that parses and
    carries a truthy delta that converts to a string; blank fragments,
    malformed fragments, fragments without such a delta and fragments
    whose delta makes [full += delta] throw are passed over and the stream
    goes on.  The value returned is the concatenation of the images of the
    deltas passed to [onDelta], in that order. *)
Theorem C1_stream_deltas (JSON_parse : jsstring → option JsValue)
    (status : Z) (chunks : list jsstring) (json : Result JsValue) :
  let deltas := deltas_of JSON_parse (concat chunks) in
  ollamaChatStream JSON_parse
    (Ok {| ok := true; status := status; body := Some chunks; json := json |})
  = (Ok (concat (image <$> deltas)), deltas).
Proof. by apply ollamaChatStream_run. Qed.

(** The scenario of the specification: three deltas arrive, here with a
    chunk boundary inside a fragment and a garbled fragment in between;
    [onDelta] sees them in order and the call returns them joined. *)
Example stream_scenario :
  ollamaChatStream JSON_parse_sample
    (Ok {| ok := true; status := 200; json := Throw TypeError;
           body := Some [wire "{`message`:{`content`:`\\para`}}" ++ [LF] ++
                           wire "{`message`:{`cont";
                         wire "ent`:`graph{Structure}`}}" ++ [LF] ++
                           wire "{`message`:{`con" ++ [LF];
                         wire "{`message`:{`content`:` Good.`}}" ++ [LF]] |})
  = (Ok (str "\paragraph{Structure} Good."),
     [JStr (str "\para"); JStr (str "graph{Structure}"); JStr (str " Good.")]).
Proof. by vm_compute. Qed.

(** A delta that is an object with a [toString] property of its own: the
    append throws, the fragment is passed over without a call, and the
    stream goes on with the next fragment. *)
Example stream_skips_unconvertible :
  ToString (JObj [(str "toString", JNum true (str "1"))]) = Throw TypeError ∧
  ollamaChatStream JSON_parse_sample
    (Ok {| ok := true; status := 200; json := Throw TypeError;
           body := Some [wire "{`message`:{`content`:{`toString`:1}}}" ++
                           [LF] ++
                           wire "{`message`:{`content`:` Good.`}}" ++ [LF]] |})
  = (Ok (str " Good."), [JStr (str " Good.")]).
Proof. by vm_compute. Qed.

(** C1, as stated, fails: the closing fragment of a stream parses, yet it
    carries an empty delta and [onDelta] is not invoked for it. *)
Lemma C1_counterexample :
  let text := wire "{`message`:{`content`:``},`done`:true}" ++ [LF] in
  let res := {| ok := true; status := 200; body := Some [text];
                json := Throw TypeError |} in
  length (parsed_fragments JSON_parse_sample text) = 1 ∧
  ollamaChatStream JSON_parse_sample (Ok res) = (Ok [], []).
Proof. by vm_compute. Qed.

(** C9.  A response with a non-success status makes both [ollamaChat] and
    [ollamaChatStream] throw the transport error, and so does a streaming
    response without a body; [onDelta] is never invoked and no text is
    returned. *)
Theorem C9_transport_error (JSON_parse : jsstring → option JsValue)
    (status : Z) (body : option (list jsstring)) (json : Result JsValue)
    (ok : bool) :
  let failed := {| ok := false; status := status; body := body;
                   json := json |} in
  let bodyless := {| ok := ok; status := status; body := None;
                     json := json |} in
  ollamaChat (Ok failed) = Throw (OllamaHTTP status) ∧
  ollamaChatStream JSON_parse (Ok failed) = (Throw (OllamaHTTP status), []) ∧
  ollamaChatStream JSON_parse (Ok bodyless) = (Throw (OllamaHTTP status), []).
Proof.
  split_and!; [done | done |].
  unfold ollamaChatStream. simpl. by destruct ok.
Qed.

Example http_500 :
  let res := {| ok := false; status := 500; json := Throw TypeError;
                body := Some [wire "{`message`:{`content`:` Good.`}}"] |} in
  ollamaChat (Ok res) = Throw (OllamaHTTP 500) ∧
  ollamaChatStream JSON_parse_sample (Ok res) = (Throw (OllamaHTTP 500), []).
Proof. by vm_compute. Qed.

End client_facts.

(** ** Coaching flows *)

Section flow_facts.
Import Repair ModelClient Engine.

Lemma bind_Ok {A B} (a : A) (f : A → Result B) : Ok a ≫= f = f a.
Proof. done. Qed.

Lemma FALLBACK_repaired : repair FALLBACK = FALLBACK.
Proof. by vm_compute. Qed.

Lemma finalOut_blank (s : jsstring) :
  trim s = [] → finalOut (JStr s) = Ok FALLBACK.
Proof.
  intros H. unfold finalOut. simpl. rewrite H. simpl.
  rewrite andb_false_r.
  change (Ok (repair FALLBACK) = Ok FALLBACK). by rewrite FALLBACK_repaired.
Qed.

Lemma repair_nonempty (safe : jsstring) : safe ≠ [] → repair safe ≠ [].
Proof.
  intros Hsafe. unfold repair.
  destruct (ensureLatexCompleteness_suffix (ensureCompleteSentences safe))
    as (w & -> & _).
  assert (ensureCompleteSentences safe ≠ []) as Hkept.
  { destruct (ensureCompleteSentences_shape safe) as [[_ ->] | Hdone];
      [done | by apply completed_nonempty]. }
  by destruct (ensureCompleteSentences safe).
Qed.

Lemma safeOut_nonempty out safe : safeOut out = Ok safe → safe ≠ [].
Proof.
  destruct out as [| |b|nonzero image|s|items|fields]; simpl;
    try (intros [= <-]; done);
    try (destruct b); try (destruct nonzero); try (intros [= <-]; done);
    try done.
  destruct s as [|c s]; simpl; [by intros [= <-]|].
  destruct (truthy_str (trim (c :: s))); by intros [= <-].
Qed.

Lemma finalOut_nonempty out t : finalOut out = Ok t → t ≠ [].
Proof.
  unfold finalOut. destruct (safeOut out) as [safe|e] eqn:Hsafe; [|done].
  simpl. intros [= <-]. apply repair_nonempty.
  by eapply safeOut_nonempty.
Qed.

Lemma streamed_concat (calls : list JsValue) :
  streamed calls = concat (image <$> calls).
Proof.
  unfold streamed.
  assert (∀ acc, foldl (λ out delta,
                          match ToString delta with
                          | Ok s => out ++ s
                          | Throw _ => out
                          end) acc calls =
                 acc ++ concat (image <$> calls)) as H; [|by rewrite H].
  induction calls as [|d calls IH]; intros acc; simpl.
  - by rewrite app_nil_r.
  - rewrite IH. unfold image. destruct (ToString d); simpl; [|done].
    by rewrite app_assoc.
Qed.

Lemma answer_not_delta t (calls : list JsValue) :
  Answer t ∉ AnswerDelta <$> calls.
Proof. intros (d & Hd & _)%list_elem_of_fmap. discriminate Hd. Qed.

(** What [ollamaChatStream] returns is what the [onDelta] callback of
    ['run-now'] has accumulated. *)
Lemma streamed_full JSON_parse fetched full calls :
  ollamaChatStream JSON_parse fetched = (Ok full, calls) →
  streamed calls = full.
Proof.
  destruct fetched as [res|e]; [|done].
  destruct (ok res) eqn:Hok, (body res) as [chunks|] eqn:Hbody;
    try (unfold ollamaChatStream; rewrite Hok, Hbody; done).
  rewrite (ollamaChatStream_run _ res chunks Hok Hbody).
  intros [= <- <-]. apply streamed_concat.
Qed.

(** C10.  In every coaching flow, the ['coach'] and ['coach:expand']
    handlers, the ['run-now'] handler and the alarm tick, a model output
    that is empty or all white space is replaced by the fixed fallback
    text, which Output Repair leaves as it is; and whatever the model
    returned, a flow that succeeds never delivers an empty text. *)
Theorem C10_coaching_fallback (JSON_parse : jsstring → option JsValue)
    (fetched : Result Response) (page : Page) :
  (∀ s, ollamaChat fetched = Ok (JStr s) → trim s = [] →
     on_coach fetched = ReplyText FALLBACK ∧
     on_coach_expand fetched = ReplyText FALLBACK ∧
     (has_tab page = true → sample_text page ≠ [] →
      on_alarm Scheduler.TICK false page fetched = [Answer FALLBACK])) ∧
  (∀ full calls,
     ollamaChatStream JSON_parse fetched = (Ok full, calls) →
     trim full = [] →
     has_tab page = true → sample_text page ≠ [] →
     on_run_now JSON_parse page fetched =
       (ReplyDone, (AnswerDelta <$> calls) ++ [Answer FALLBACK])) ∧
  (∀ t, on_coach fetched = ReplyText t ∨
        on_coach_expand fetched = ReplyText t ∨
        (∃ name is_paused,
           Answer t ∈ on_alarm name is_paused page fetched) ∨
        Answer t ∈ (on_run_now JSON_parse page fetched).2 →
        t ≠ []).
Proof.
  split_and!.
  - intros s Hchat Hblank. unfold on_coach, on_coach_expand, on_alarm.
    rewrite Hchat, bind_Ok, (finalOut_blank s Hblank).
    split_and!; [done | done |]. intros Htab Hsample. rewrite Htab.
    by destruct (sample_text page).
  - intros full calls Hrun Hblank Htab Hsample. unfold on_run_now.
    rewrite Htab.
    destruct (sample_text page); [done|]. simpl negb. cbv iota.
    rewrite Hrun, bind_Ok, (streamed_full _ _ _ _ Hrun).
    by rewrite (finalOut_blank _ Hblank).
  - intros t Hcases.
    assert (∀ u, ollamaChat fetched ≫= finalOut = Ok u → u ≠ [])
      as Hchat.
    { intros u. destruct (ollamaChat fetched) as [out|e]; [|done].
      simpl. apply finalOut_nonempty. }
    destruct Hcases as [H | [H | [(name & is_paused & H) | H]]].
    + unfold on_coach in H.
      destruct (ollamaChat fetched ≫= finalOut) as [u|e] eqn:Hu; [|done].
      injection H as ->. by apply Hchat.
    + unfold on_coach_expand in H.
      destruct (ollamaChat fetched ≫= finalOut) as [u|e] eqn:Hu; [|done].
      injection H as ->. by apply Hchat.
    + unfold on_alarm in H.
      repeat (match type of H with
              | _ ∈ (if ?b then _ else _) => destruct b
              end; [by apply elem_of_nil in H|]).
      destruct (ollamaChat fetched ≫= finalOut) as [u|e] eqn:Hu.
      * apply list_elem_of_singleton in H. injection H as ->. by apply Hchat.
      * by apply list_elem_of_singleton in H.
    + unfold on_run_now in H.
      repeat (match type of H with
              | _ ∈ (if ?b then _ else _).2 =>
                  destruct b; [by apply elem_of_nil in H|]
              end).
      destruct (ollamaChatStream JSON_parse fetched) as [settled calls].
      destruct settled as [full|e]; [rewrite bind_Ok in H | simpl in H].
      * destruct (finalOut (JStr (streamed calls))) as [u|e] eqn:Hu;
          simpl in H; apply elem_of_app in H as [H|H].
        -- by apply answer_not_delta in H.
        -- apply list_elem_of_singleton in H. injection H as ->.
           by eapply finalOut_nonempty.
        -- by apply answer_not_delta in H.
        -- by apply list_elem_of_singleton in H.
      * apply elem_of_app in H as [H|H].
        -- by apply answer_not_delta in H.
        -- by apply list_elem_of_singleton in H.
Qed.

(** A model that answers with two spaces: the ['coach'] handler replies
    with the fallback text. *)
Lemma C10_coaching_fallback_witness :
  let fetched :=
    Ok {| ok := true; status := 200; body := None;
          json := Ok (JObj [(str "message",
                             JObj [(str "content", JStr (str "  "))])]) |} in
  let page := {| has_tab := true; visible_text := str "Some text";
                 full_text := [] |} in
  ollamaChat fetched = Ok (JStr (str "  ")) ∧ trim (str "  ") = [] ∧
  on_coach fetched = ReplyText FALLBACK.
Proof.
  intros fetched page. split; [by vm_compute|]. split; [by vm_compute|].
  destruct (C10_coaching_fallback JSON_parse_sample fetched page) as (H & _).
  destruct (H (str "  ")) as (Hcoach & _); [by vm_compute | by vm_compute |].
  exact Hcoach.
Defined.

End flow_facts.

(** ** Scheduler *)

Section scheduler_facts.
Import Scheduler.

Lemma getSettings_ensureAlarm w : getSettings (ensureAlarm w) = getSettings w.
Proof. unfold ensureAlarm. by destruct (_ && _). Qed.

Lemma getSettings_setSettings patch w :
  getSettings (setSettings patch w) = spread (getSettings w) patch.
Proof.
  unfold setSettings. rewrite getSettings_ensureAlarm.
  unfold getSettings, spread, all_of. simpl. done.
Qed.

Lemma ensureAlarm_alarms w :
  at_most_tick w →
  alarms (ensureAlarm w) =
  if wants_timer (getSettings w)
  then {[TICK := intervalMin (getSettings w)]} else ∅.
Proof.
  intros Hw. unfold ensureAlarm. fold (wants_timer (getSettings w)).
  assert (delete TICK (alarms w) = ∅) as Hclear.
  { destruct Hw as [-> | [period ->]];
      [apply delete_empty | apply delete_singleton_eq]. }
  destruct (wants_timer (getSettings w)); simpl; rewrite Hclear; [|done].
  apply insert_empty.
Qed.

Lemma ensureAlarm_at_most_tick w :
  at_most_tick w → at_most_tick (ensureAlarm w).
Proof.
  intros Hw. unfold at_most_tick. rewrite (ensureAlarm_alarms w Hw).
  destruct (wants_timer _); [right; by eexists | by left].
Qed.

Lemma setSettings_at_most_tick patch w :
  at_most_tick w → at_most_tick (setSettings patch w).
Proof. intros Hw. unfold setSettings. by apply ensureAlarm_at_most_tick. Qed.

Lemma handle_at_most_tick ev w : at_most_tick w → at_most_tick (handle ev w).
Proof.
  intros Hw. destruct ev; simpl.
  - by apply ensureAlarm_at_most_tick, setSettings_at_most_tick.
  - by apply ensureAlarm_at_most_tick.
  - by apply setSettings_at_most_tick.
Qed.

Lemma run_at_most_tick evs : at_most_tick (run evs).
Proof.
  unfold run. assert (at_most_tick fresh) as H by (by left).
  revert H. generalize fresh. induction evs as [|ev evs IH]; intros w Hw.
  - done.
  - simpl. by apply IH, handle_at_most_tick.
Qed.

Lemma at_most_tick_size w : at_most_tick w → size (alarms w) ≤ 1.
Proof.
  intros [-> | [period ->]]; [rewrite map_size_empty; lia|].
  rewrite map_size_singleton. lia.
Qed.

(** C8.  After every settings change the scheduler is armed, with the tick
    timer as the one alarm, exactly when the stored configuration has
    [paused = false] and [intervalMin > 0]; otherwise there is no timer;
    and no state the extension can get into holds more than one timer. *)
Theorem C8_scheduler_armed_iff (evs : list Event) (patch : Patch) :
  let w := setSettings patch (run evs) in
  let s := getSettings w in
  (alarms w = {[TICK := intervalMin s]} ↔
     paused s = false ∧ (0 < intervalMin s)%Z) ∧
  (¬ (paused s = false ∧ (0 < intervalMin s)%Z) → alarms w = ∅) ∧
  size (alarms w) ≤ 1 ∧
  size (alarms (run evs)) ≤ 1.
Proof.
  intros w s.
  assert (alarms w = if wants_timer s then {[TICK := intervalMin s]} else ∅)
    as Halarms.
  { unfold w at 1, setSettings. rewrite ensureAlarm_alarms.
    - unfold s, w. by rewrite getSettings_setSettings.
    - apply run_at_most_tick. }
  assert (wants_timer s = true ↔ paused s = false ∧ (0 < intervalMin s)%Z)
    as Hwants.
  { unfold wants_timer. rewrite andb_true_iff, negb_true_iff.
    by rewrite Z.gtb_gt, Z.gt_lt_iff. }
  split_and!.
  - rewrite Halarms. destruct (wants_timer s) eqn:Hs.
    + split; [intros _; by apply Hwants | done].
    + split; [|intros H; apply Hwants in H; congruence].
      intros H. symmetry in H. by apply map_non_empty_singleton in H.
  - intros Hnot. rewrite Halarms. destruct (wants_timer s) eqn:Hs; [|done].
    exfalso. apply Hnot. by apply Hwants.
  - apply at_most_tick_size, setSettings_at_most_tick, run_at_most_tick.
  - apply at_most_tick_size, run_at_most_tick.
Qed.

(** The scenario of the specification: unpaused with a five-minute
    interval the scheduler is armed; pausing disarms it. *)
Example scheduler_scenario :
  let unpause := {| endpoint' := None; model' := None;
                    intervalMin' := Some 5%Z; paused' := Some false |} in
  let pause := {| endpoint' := None; model' := None;
                  intervalMin' := None; paused' := Some true |} in
  alarms (run [Installed; SettingsSet unpause]) = {[TICK := 5%Z]} ∧
  alarms (run [Installed; SettingsSet unpause; SettingsSet pause]) = ∅.
Proof. by vm_compute. Qed.

End scheduler_facts.

(** ** Text source adapter *)

Section text_source_facts.
Import TextSource.

Lemma first_hit_none (ps : list Probe) :
  Forall (λ p, probe_text p = []) ps → first_hit ps = [].
Proof. induction 1 as [|p ps Hp _ IH]; simpl; [done|]. by rewrite Hp. Qed.

Lemma find_selection_none (doc : Document) :
  no_selection doc → find_selection doc = [].
Proof.
  intros (Hwin & Hcm & Halt & Hace & Hrange). unfold find_selection.
  assert (match windowSelection doc with Some s => trim s | None => [] end
          = []) as -> by (destruct (windowSelection doc); auto).
  rewrite Hcm, (first_hit_none _ Halt), Hace, (first_hit_none _ Hrange).
  done.
Qed.

(** C5.  When no selection probe yields text, extraction in selection
    scope returns an empty selection and an empty text, whatever the
    document holds. *)
Theorem C5_selection_scope_stays_empty (mode : Mode) (doc : Document) :
  no_selection doc →
  grabEditorText true mode doc =
  {| selection := []; text := []; wasTruncated := false |}.
Proof.
  intros Hnone. unfold grabEditorText, chosen_text.
  rewrite (find_selection_none doc Hnone). done.
Qed.

(** A page full of text, with a selection of two blanks: nothing of the
    document is returned. *)
Lemma C5_selection_scope_stays_empty_witness :
  let doc := {|
    windowSelection := Some (str "  ");
    cmSelection := Raised;
    cmAltSelections := [Absent; Returned []];
    aceSelection := Absent;
    editableRanges := [Absent];
    codeMirror := Some {| cm_lines := [str "\section{Intro}"; str "Text."];
                          cm_scroller := None; cm_content := None |};
    ace := None;
    editorElements := [str "\section{Intro} Text."];
    bodyInnerText := str "Overleaf \section{Intro} Text." |} in
  no_selection doc ∧
  grabEditorText true All doc =
  {| selection := []; text := []; wasTruncated := false |}.
Proof.
  intros doc.
  assert (no_selection doc) as Hnone.
  { split_and!; [by intros s [= <-] | done | by repeat constructor | done
                | by repeat constructor]. }
  split; [exact Hnone|].
  exact (C5_selection_scope_stays_empty All doc Hnone).
Defined.

(** C6, as the code has it.  The budget is applied to the cleaned text,
    that is after newline normalization and after trimming surrounding
    white space: when the cleaned text is longer than 1500 units the
    sample has [wasTruncated = true] and its text is the first 1500 units
    of the cleaned text. *)
Theorem C6_truncation (preferSelection : bool) (mode : Mode) (doc : Document) :
  let cleaned := clean_up (chosen_text preferSelection mode doc) in
  let sample := grabEditorText preferSelection mode doc in
  1500 < length cleaned →
  wasTruncated sample = true ∧
  length (text sample) = 1500 ∧
  text sample = take 1500 cleaned.
Proof.
  intros cleaned sample Hlong. unfold sample, grabEditorText. fold cleaned.
  assert ((TextSource.max <? length cleaned) = true) as ->
    by (apply Nat.ltb_lt; unfold TextSource.max; lia).
  simpl. split_and!; [done | | done].
  rewrite length_take. unfold TextSource.max. lia.
Qed.

(** A selection of 1501 units is cut to 1500. *)
Lemma C6_truncation_witness :
  let doc := {|
    windowSelection := Some (replicate 1501 97%Z);
    cmSelection := Absent; cmAltSelections := []; aceSelection := Absent;
    editableRanges := []; codeMirror := None; ace := None;
    editorElements := []; bodyInnerText := [] |} in
  1500 < length (clean_up (chosen_text true All doc)) ∧
  wasTruncated (grabEditorText true All doc) = true ∧
  length (text (grabEditorText true All doc)) = 1500.
Proof.
  intros doc.
  assert (1500 < length (clean_up (chosen_text true All doc))) as Hlong
    by (vm_compute; lia).
  split; [exact Hlong|].
  destruct (C6_truncation true All doc Hlong) as (H1 & H2 & _).
  by split.
Defined.

(** C6, as stated, fails: a document of 1495 units followed by ten empty
    lines is extracted as 1505 units, newline-normalized or not, yet the
    sample is not marked truncated and holds 1495 units, because the
    trailing white space is trimmed before the budget is applied. *)
Lemma C6_counterexample :
  let doc := {|
    windowSelection := None;
    cmSelection := Absent; cmAltSelections := []; aceSelection := Absent;
    editableRanges := [];
    codeMirror := Some {| cm_lines := replicate 1495 97%Z :: replicate 10 [];
                          cm_scroller := None; cm_content := None |};
    ace := None; editorElements := []; bodyInnerText := [] |} in
  length (chosen_text false All doc) = 1505 ∧
  length (replace_cr (replace_crlf (chosen_text false All doc))) = 1505 ∧
  wasTruncated (grabEditorText false All doc) = false ∧
  length (text (grabEditorText false All doc)) = 1495.
Proof. by vm_compute. Qed.

End text_source_facts.

(** ** Sorting *)

Section sort_facts.
Context {A : Type} (cmp : A → A → Z).

Lemma sort_insert_perm x (l : list A) : sort_insert cmp x l ≡ₚ x :: l.
Proof.
  induction l as [|y l IH]; simpl; [done|].
  destruct (cmp x y <=? 0)%Z; [done|]. rewrite IH. apply Permutation_swap.
Qed.

Lemma js_sort_perm (l : list A) : js_sort cmp l ≡ₚ l.
Proof.
  induction l as [|x l IH]; simpl; [done|].
  unfold js_sort in *. simpl. by rewrite sort_insert_perm, IH.
Qed.

Lemma js_sort_length (l : list A) : length (js_sort cmp l) = length l.
Proof. by rewrite js_sort_perm. Qed.

Lemma js_sort_elem_of x (l : list A) : x ∈ js_sort cmp l ↔ x ∈ l.
Proof. by rewrite js_sort_perm. Qed.

Hypothesis cmp_trans :
  ∀ x y z,
    may_precede cmp x y → may_precede cmp y z → may_precede cmp x z.
Hypothesis cmp_total : ∀ x y, may_precede cmp x y ∨ may_precede cmp y x.

Lemma sort_insert_sorted x (l : list A) :
  StronglySorted (may_precede cmp) l →
  StronglySorted (may_precede cmp) (sort_insert cmp x l).
Proof.
  induction l as [|y l IH]; intros Hl; simpl.
  - repeat constructor.
  - apply StronglySorted_cons in Hl as [Hy Hl].
    destruct (Z.leb_spec (cmp x y) 0) as [Hxy|Hxy].
    + apply StronglySorted_cons. split; [|by apply StronglySorted_cons].
      constructor; [done|]. eapply Forall_impl; [exact Hy|].
      intros z Hz. by eapply cmp_trans.
    + apply StronglySorted_cons. split; [|by apply IH].
      apply Forall_forall. intros z Hz.
      rewrite sort_insert_perm in Hz. apply elem_of_cons in Hz as [->|Hz].
      * destruct (cmp_total y x) as [?|Hyx]; [done|].
        unfold may_precede in Hyx. lia.
      * by eapply Forall_forall in Hy.
Qed.

Lemma js_sort_sorted (l : list A) :
  StronglySorted (may_precede cmp) (js_sort cmp l).
Proof.
  induction l as [|x l IH]; [constructor|].
  unfold js_sort in *. simpl. by apply sort_insert_sorted.
Qed.

End sort_facts.

(** ** Summary cache: reading *)

Section cache_read_facts.
Import SummaryCache.

(** The hash is the 32-bit polynomial hash with multiplier 31, read as an
    unsigned number. *)
Example simpleHash_abc : simpleHash (str "abc") = 96354%Z.
Proof. by vm_compute. Qed.

Example simpleHash_wraps :
  simpleHash (str "polygenelubricants") = 2147483648%Z.
Proof. by vm_compute. Qed.

Lemma Object_entries_perm (o : Summaries) :
  Object_entries o ≡ₚ map_to_list o.
Proof. apply js_sort_perm. Qed.

Lemma elem_of_Object_entries (o : Summaries) k e :
  (k, e) ∈ Object_entries o ↔ o !! k = Some e.
Proof. by rewrite Object_entries_perm, elem_of_map_to_list. Qed.

Lemma elem_of_Object_values (o : Summaries) e :
  e ∈ Object_values o ↔ ∃ k, o !! k = Some e.
Proof.
  unfold Object_values. rewrite list_elem_of_fmap. split.
  - intros ([k e'] & -> & Hin). exists k. by apply elem_of_Object_entries.
  - intros [k Hk]. exists (k, e). split; [done|].
    by apply elem_of_Object_entries.
Qed.

Lemma elem_of_Object_keys (o : Summaries) k :
  k ∈ Object_keys o ↔ is_Some (o !! k).
Proof.
  unfold Object_keys. rewrite list_elem_of_fmap. split.
  - intros ([k' e] & -> & Hin). exists e. by apply elem_of_Object_entries.
  - intros [e Hk]. exists (k, e). split; [done|].
    by apply elem_of_Object_entries.
Qed.

Lemma Object_values_length (o : Summaries) : length (Object_values o) = size o.
Proof.
  unfold Object_values. rewrite length_fmap, Object_entries_perm.
  apply length_map_to_list.
Qed.

Lemma by_recency_trans x y z :
  may_precede by_recency x y → may_precede by_recency y z →
  may_precede by_recency x z.
Proof. unfold may_precede, by_recency. lia. Qed.

Lemma by_recency_total x y :
  may_precede by_recency x y ∨ may_precede by_recency y x.
Proof. unfold may_precede, by_recency. lia. Qed.

(** The head of the list sorted by recency is a most recent entry. *)
Lemma most_recent_first (entries : list SummaryEntry) e :
  head (js_sort by_recency entries) = Some e →
  e ∈ entries ∧ ∀ e', e' ∈ entries → (updatedAt e' ≤ updatedAt e)%Z.
Proof.
  intros Hhead. apply head_Some in Hhead as [rest Hsorted].
  pose proof (js_sort_sorted by_recency by_recency_trans by_recency_total
                entries) as Hs.
  rewrite Hsorted in Hs. apply StronglySorted_cons in Hs as [Hall _].
  split.
  - apply (js_sort_elem_of by_recency). rewrite Hsorted. left.
  - intros e' Hin. apply (js_sort_elem_of by_recency) in Hin.
    rewrite Hsorted in Hin. apply elem_of_cons in Hin as [->|Hin]; [lia|].
    eapply Forall_forall in Hall; [|done].
    unfold may_precede, by_recency in Hall. lia.
Qed.

Lemma head_js_sort_is_Some (entries : list SummaryEntry) :
  entries ≠ [] → is_Some (head (js_sort by_recency entries)).
Proof.
  intros Hne. destruct (js_sort by_recency entries) as [|e rest] eqn:Hs.
  - apply (f_equal length) in Hs. rewrite js_sort_length in Hs.
    by destruct entries.
  - by eexists.
Qed.

Lemma emit_run_tokens (run w : jsstring) :
  Forall (λ c, is_token_unit c = true) run →
  w ∈ emit_run run →
  3 ≤ length w ∧ Forall (λ c, is_token_unit c = true) w.
Proof.
  intros Hrun. unfold emit_run.
  destruct (Nat.leb_spec 3 (length run)) as [Hlen|_].
  - intros Hw%list_elem_of_singleton. by subst w.
  - by intros ?%elem_of_nil.
Qed.

Lemma match_runs_tokens (run s w : jsstring) :
  Forall (λ c, is_token_unit c = true) run →
  w ∈ match_runs run s →
  3 ≤ length w ∧ Forall (λ c, is_token_unit c = true) w.
Proof.
  revert run. induction s as [|c s IH]; intros run Hrun; simpl.
  - by apply emit_run_tokens.
  - destruct (is_token_unit c) eqn:Hc.
    + apply IH. apply Forall_app. split; [done|]. by repeat constructor.
    + intros [Hin|Hin]%elem_of_app; [by eapply emit_run_tokens|].
      by apply (IH []).
Qed.

Lemma new_Set_sub (l : list jsstring) w : w ∈ new_Set l → w ∈ l.
Proof.
  unfold new_Set.
  assert (∀ acc, w ∈ foldl Set_add acc l → w ∈ acc ∨ w ∈ l) as H.
  { induction l as [|x l IH]; intros acc Hin; simpl in *; [by left|].
    apply IH in Hin as [Hin|Hin]; [|right; by right].
    unfold Set_add in Hin. destruct (Set_has acc x); [by left|].
    apply elem_of_app in Hin as [?|Hw%list_elem_of_singleton];
      [by left | subst w; right; left]. }
  intros Hin. apply H in Hin as [Hin|Hin]; [by apply elem_of_nil in Hin | done].
Qed.

Section with_lower.
Variable toLowerCase : jsstring → jsstring.

(** Every token is a run of at least three units of [[a-z0-9]]. *)
Lemma tokenize_tokens (s w : jsstring) :
  w ∈ tokenize toLowerCase s →
  3 ≤ length w ∧ Forall (λ c, is_token_unit c = true) w.
Proof.
  intros Hin%new_Set_sub. by apply (match_runs_tokens [] _ w) in Hin.
Qed.

Lemma overlap_nonneg (sel t : list jsstring) : (0 ≤ overlap sel t)%Z.
Proof.
  unfold overlap.
  assert (∀ acc, (0 ≤ acc)%Z →
    (0 ≤ foldl (λ score w, if Set_has t w then (score + 1)%Z else score)
           acc sel)%Z) as H; [|by apply H].
  induction sel as [|w sel IH]; intros acc Hacc; simpl; [done|].
  apply IH. destruct (Set_has t w); lia.
Qed.

(** The scan keeps the first entry whose score no other entry beats. *)
Lemma scan_first_best (sel : list jsstring) (entries : list SummaryEntry) :
  entries ≠ [] →
  ∃ before best after,
    entries = before ++ best :: after ∧
    foldl (consider toLowerCase sel) (None, (-1)%Z) entries
      = (Some best, score toLowerCase sel best) ∧
    (∀ e, e ∈ before →
          (score toLowerCase sel e < score toLowerCase sel best)%Z) ∧
    (∀ e, e ∈ after →
          (score toLowerCase sel e ≤ score toLowerCase sel best)%Z).
Proof.
  induction entries as [|x entries IH] using rev_ind; [done|]. intros _.
  rewrite foldl_snoc. destruct entries as [|y entries'].
  - exists [], x, []. split_and!; [done | | by intros ? ?%elem_of_nil
                                   | by intros ? ?%elem_of_nil].
    simpl. unfold consider. simpl. fold (score toLowerCase sel x).
    pose proof (overlap_nonneg sel (tokenize toLowerCase (text x))).
    fold (score toLowerCase sel x) in H.
    destruct (Z.gtb_spec (score toLowerCase sel x) (-1)); [done | lia].
  - destruct IH as (before & best & after & Hsplit & -> & Hbefore & Hafter);
      [done|].
    rewrite Hsplit. unfold consider at 1. simpl. fold (score toLowerCase sel x).
    destruct (Z.gtb_spec (score toLowerCase sel x)
                (score toLowerCase sel best)) as [Hgt|Hle].
    + exists (before ++ best :: after), x, [].
      split_and!; [done | done | | by intros ? ?%elem_of_nil].
      intros e [Hin|Hin]%elem_of_app.
      * specialize (Hbefore e Hin). lia.
      * apply elem_of_cons in Hin as [->|Hin]; [lia|].
        specialize (Hafter e Hin). lia.
    + exists before, best, (after ++ [x]).
      split_and!; [by rewrite <- app_assoc | done | done |].
      intros e [Hin|He%list_elem_of_singleton]%elem_of_app;
        [auto | subst e; lia].
Qed.

(** C2, as the code has it.  [pickBestSummary] splits the lower-cased
    provided text into tokens, runs of at least three units of [[a-z0-9]].
    It returns no entry exactly when the cache is empty.  With an empty
    token set it returns a most recently updated entry.  Otherwise it
    returns an entry whose digest shares the most tokens with the provided
    text, and among entries tied on a positive count it returns the one
    that comes first when the table is enumerated, whatever their update
    times. *)
Theorem C2_pickBestSummary (provided : jsstring) (summaries : Summaries) :
  let entries := Object_values summaries in
  let sel := tokenize toLowerCase provided in
  let score_of := score toLowerCase sel in
  (∀ w, w ∈ sel →
        3 ≤ length w ∧ Forall (λ c, is_token_unit c = true) w) ∧
  match pickBestSummary toLowerCase provided summaries with
  | None => summaries = ∅
  | Some best =>
      if decide (sel = []) then
        best ∈ entries ∧
        ∀ e, e ∈ entries → (updatedAt e ≤ updatedAt best)%Z
      else
        ∃ before after,
          entries = before ++ best :: after ∧
          (∀ e, e ∈ entries → (score_of e ≤ score_of best)%Z) ∧
          ((0 < score_of best)%Z →
           ∀ e, e ∈ before → (score_of e < score_of best)%Z)
  end.
Proof.
  intros entries sel score_of. split; [by apply tokenize_tokens|].
  unfold score_of.
  unfold pickBestSummary. fold entries sel.
  destruct (decide (length entries = 0)) as [Hlen|Hlen].
  - rewrite bool_decide_eq_true_2 by done.
    apply map_size_empty_inv. unfold entries in Hlen.
    by rewrite Object_values_length in Hlen.
  - rewrite bool_decide_eq_false_2 by done.
    assert (entries ≠ []) as Hne by (by destruct entries).
    destruct (decide (sel = [])) as [Hsel|Hsel].
    + rewrite Hsel. simpl.
      destruct (head_js_sort_is_Some entries Hne) as [best Hbest].
      rewrite Hbest. by apply most_recent_first.
    + rewrite bool_decide_eq_false_2 by (by destruct sel).
      destruct (scan_first_best sel entries Hne)
        as (before & best & after & Hsplit & -> & Hbefore & Hafter).
      simpl. exists before, after. split_and!; [done | | auto].
      intros e. rewrite Hsplit.
      intros [Hin|[->|Hin]%elem_of_cons]%elem_of_app;
        [specialize (Hbefore e Hin); lia | lia | auto].
Qed.

End with_lower.

(** C2, as stated, fails: two digests tie on one shared token; the entry
    enumerated first is returned although the other one is more recent. *)
Lemma C2_counterexample :
  let older := {| sectionKey := 11; text := str "Methods overview";
                  updatedAt := 1000 |} in
  let newer := {| sectionKey := 42; text := str "Methods in detail";
                  updatedAt := 2000 |} in
  let summaries : Summaries := {[ 11%Z := older; 42%Z := newer ]} in
  let sel := tokenize toLowerCase_latin (str "our methods") in
  score toLowerCase_latin sel older = 1%Z ∧
  score toLowerCase_latin sel newer = 1%Z ∧
  (updatedAt older < updatedAt newer)%Z ∧
  pickBestSummary toLowerCase_latin (str "our methods") summaries
    = Some older.
Proof. by vm_compute. Qed.

End cache_read_facts.

(** ** Summary cache: writing *)

Section cache_write_facts.
Import SummaryCache.

Lemma fold_delete_lookup (keep ks : list Z) (o : Summaries) k :
  foldl (λ o key, if bool_decide (key ∈ keep) then o else delete key o) o ks
    !! k
  = if decide (k ∈ ks ∧ k ∉ keep) then None else o !! k.
Proof.
  revert o. induction ks as [|key ks IH]; intros o; simpl.
  - done.
  - rewrite IH. destruct (decide (k ∈ ks ∧ k ∉ keep)) as [[Hin Hout]|Hno].
    + rewrite decide_True; [done|]. split; [by right | done].
    + destruct (decide (key ∈ keep)) as [Hkeep|Hdrop].
      * rewrite bool_decide_eq_true_2 by done.
        rewrite decide_False; [done|]. intros [[->|Hin]%elem_of_cons Hout];
          [done|]. by apply Hno.
      * rewrite bool_decide_eq_false_2 by done.
        destruct (decide (k = key)) as [->|Hne].
        -- rewrite lookup_delete_eq. rewrite decide_True; [done|].
           split; [left | done].
        -- rewrite lookup_delete_ne by done.
           rewrite decide_False; [done|].
           intros [[->|Hin]%elem_of_cons Hout]; [done|]. by apply Hno.
Qed.

Lemma cap_entries_lookup (o : Summaries) k :
  cap_entries o !! k =
  if decide (maxEntries < size o ∧ k ∉ keepSet o) then None else o !! k.
Proof.
  unfold cap_entries. rewrite js_sort_length, Object_values_length.
  fold (keepSet o).
  destruct (Nat.ltb_spec maxEntries (size o)) as [Hbig|Hsmall].
  - rewrite fold_delete_lookup.
    destruct (decide (k ∈ keepSet o)) as [Hkeep|Hdrop].
    + rewrite !decide_False; [done | by intros [_ ?] | by intros [_ ?]].
    + rewrite (decide_True (P := _ < _ ∧ _)) by done.
      destruct (decide (k ∈ Object_keys o ∧ k ∉ keepSet o)) as [_|Hno];
        [done|].
      destruct (o !! k) as [e|] eqn:Hk; [|done].
      exfalso. apply Hno. split; [|done].
      apply elem_of_Object_keys. by eexists.
  - rewrite decide_False; [done|]. intros [? _]. lia.
Qed.

Lemma cap_entries_sub (o : Summaries) k e :
  cap_entries o !! k = Some e → o !! k = Some e.
Proof. rewrite cap_entries_lookup. by destruct (decide _). Qed.

Lemma keepSet_length (o : Summaries) : length (keepSet o) ≤ maxEntries.
Proof. unfold keepSet. rewrite length_fmap, length_take. lia. Qed.

(** Whatever the table holds, the capped table has at most twelve
    entries. *)
Lemma cap_entries_size (o : Summaries) : size (cap_entries o) ≤ maxEntries.
Proof.
  destruct (decide (maxEntries < size o)) as [Hbig|Hsmall].
  - rewrite <- length_map_to_list, <- (length_fmap fst).
    etrans; [|apply keepSet_length]. apply submseteq_length.
    apply NoDup_submseteq; [apply NoDup_fst_map_to_list|].
    intros k ([k' e] & -> & Hin%elem_of_map_to_list)%list_elem_of_fmap.
    simpl. rewrite cap_entries_lookup in Hin.
    destruct (decide (maxEntries < size o ∧ k' ∉ keepSet o)) as [|Hno];
      [done|].
    destruct (decide (k' ∈ keepSet o)); [done|]. exfalso. by apply Hno.
  - assert (cap_entries o = o) as ->; [|lia].
    apply map_eq. intros k. rewrite cap_entries_lookup.
    rewrite decide_False; [done|]. by intros [? _].
Qed.

Lemma well_keyed_values (o : Summaries) e :
  well_keyed o → e ∈ Object_values o → o !! sectionKey e = Some e.
Proof.
  intros Hwk [k Hk]%elem_of_Object_values.
  by destruct (Hwk k e Hk) as [-> _].
Qed.

Lemma snoc_of_length {A} (l : list A) n :
  length l = S n → ∃ x, l = take n l ++ [x].
Proof.
  intros Hlen. pose proof (take_drop n l) as Hsplit.
  assert (length (drop n l) = 1) as Hdrop by (rewrite length_drop; lia).
  revert Hsplit Hdrop. destruct (drop n l) as [|x [|y rest]]; simpl;
    intros Hsplit Hdrop; try lia.
  by exists x.
Qed.

(** A table of thirteen loses exactly one entry, and none of those kept
    is older than it. *)
Lemma cap_entries_evicts (o : Summaries) :
  well_keyed o → size o = S maxEntries →
  ∃ k_old e_old,
    o !! k_old = Some e_old ∧
    cap_entries o = delete k_old o ∧
    ∀ k e, cap_entries o !! k = Some e →
           (updatedAt e_old ≤ updatedAt e)%Z.
Proof.
  intros Hwk Hsize.
  set (sorted := js_sort by_recency (Object_values o)).
  assert (length sorted = S maxEntries) as Hlen
    by (unfold sorted; by rewrite js_sort_length, Object_values_length).
  destruct (snoc_of_length sorted maxEntries Hlen) as [e_old Hsplit].
  assert (∀ e, e ∈ sorted ↔ e ∈ Object_values o) as Hsorted_in
    by (intros e; apply js_sort_elem_of).
  assert (e_old ∈ sorted) as Hold_in
    by (rewrite Hsplit; apply elem_of_app; right; left).
  assert (o !! sectionKey e_old = Some e_old) as Hold
    by (by apply well_keyed_values, Hsorted_in).
  pose proof (js_sort_sorted by_recency by_recency_trans by_recency_total
                (Object_values o)) as Hs.
  fold sorted in Hs. rewrite Hsplit in Hs.
  apply StronglySorted_app in Hs as (Hbefore & _ & _).
  assert (NoDup sorted) as Hnodup.
  { unfold sorted. rewrite js_sort_perm. unfold Object_values.
    apply (NoDup_fmap_1 sectionKey). rewrite <- list_fmap_compose.
    assert ((sectionKey ∘ snd) <$> Object_entries o = Object_keys o) as ->.
    { unfold Object_keys. apply list_fmap_ext. intros i [k e] Hi. simpl.
      apply list_elem_of_lookup_2, elem_of_Object_entries in Hi.
      by destruct (Hwk k e Hi). }
    unfold Object_keys. rewrite Object_entries_perm.
    apply NoDup_fst_map_to_list. }
  rewrite Hsplit in Hnodup. apply NoDup_app in Hnodup as (_ & Hapart & _).
  assert (∀ k e, o !! k = Some e → k ≠ sectionKey e_old →
                 e ∈ take maxEntries sorted) as Hkept.
  { intros k e Hk Hne.
    assert (e ∈ sorted) as Hin
      by (apply Hsorted_in, elem_of_Object_values; by eexists).
    rewrite Hsplit in Hin.
    apply elem_of_app in Hin as [Hin|Hin%list_elem_of_singleton]; [done|].
    subst e. by destruct (Hwk k e_old Hk). }
  assert (sectionKey e_old ∉ keepSet o) as Hout.
  { unfold keepSet. fold sorted.
    intros (e & Hkey & Hin)%list_elem_of_fmap.
    assert (e = e_old) as ->.
    { assert (e ∈ sorted) as Hin'
        by (rewrite Hsplit; apply elem_of_app; by left).
      apply Hsorted_in in Hin'.
      pose proof (well_keyed_values o e Hwk Hin') as He.
      rewrite <- Hkey in He. congruence. }
    apply (Hapart e_old Hin). left. }
  assert (cap_entries o = delete (sectionKey e_old) o) as Hcap.
  { apply map_eq. intros k. rewrite cap_entries_lookup.
    destruct (decide (k = sectionKey e_old)) as [->|Hne].
    - rewrite lookup_delete_eq. rewrite decide_True; [done|].
      split; [lia | done].
    - rewrite lookup_delete_ne by done.
      destruct (decide (maxEntries < size o ∧ k ∉ keepSet o))
        as [[_ Hdrop]|_]; [|done].
      destruct (o !! k) as [e|] eqn:Hk; [|done].
      exfalso. apply Hdrop. unfold keepSet. fold sorted.
      apply list_elem_of_fmap. exists e.
      split; [by destruct (Hwk k e Hk) | by eapply Hkept]. }
  exists (sectionKey e_old), e_old. split_and!; [done | done |].
  intros k e. rewrite Hcap. intros [Hne Hk]%lookup_delete_Some.
  assert (e ∈ take maxEntries sorted) as Hin by (by eapply Hkept).
  specialize (Hbefore e e_old Hin). unfold may_precede, by_recency in Hbefore.
  assert (e_old ∈ [e_old]) as Hself by left. specialize (Hbefore Hself). lia.
Qed.

End cache_write_facts.

Section cache_write_history.
Import SummaryCache.

Lemma maybeUpdateSummary_saved sampleText (summaries : Summaries) fetched now
    stored :
  well_keyed summaries →
  maybeUpdateSummary sampleText summaries fetched now = Saved stored →
  let key := simpleHash (take 800 sampleText) in
  ∃ digest,
    digest ≠ [] ∧ summaries !! key = None ∧
    stored = cap_entries (<[key := {| sectionKey := key; text := digest;
                                      updatedAt := now |}]> summaries).
Proof.
  intros Hwk. unfold maybeUpdateSummary.
  destruct (summaries !! simpleHash (take 800 sampleText)) as [e|] eqn:Hkey.
  - destruct (Hwk _ _ Hkey) as [_ Htext]. by destruct (text e).
  - destruct (match ModelClient.ollamaChat fetched with
              | Ok v => v | Throw _ => JStr [] end) as [| | | |s| |];
      simpl; try done; try (by destruct (negb _)).
    destruct s as [|c s]; [done|]. simpl.
    destruct (trim (c :: s)) as [|d digest] eqn:Hdigest; [done|].
    simpl. intros [= <-]. by exists (d :: digest).
Qed.

Lemma maybeUpdateSummary_cached sampleText (summaries : Summaries) fetched now :
  well_keyed summaries →
  is_Some (summaries !! simpleHash (take 800 sampleText)) →
  maybeUpdateSummary sampleText summaries fetched now = AlreadyCached.
Proof.
  intros Hwk [e Hkey]. unfold maybeUpdateSummary. rewrite Hkey.
  destruct (Hwk _ _ Hkey) as [_ Htext]. by destruct (text e).
Qed.

Lemma well_keyed_insert (summaries : Summaries) key digest now :
  well_keyed summaries → digest ≠ [] →
  well_keyed (<[key := {| sectionKey := key; text := digest;
                          updatedAt := now |}]> summaries).
Proof.
  intros Hwk Hdigest k e [[<- <-]|[Hne Hk]]%lookup_insert_Some; [done|].
  by apply Hwk.
Qed.

Lemma well_keyed_cap (o : Summaries) :
  well_keyed o → well_keyed (cap_entries o).
Proof. intros Hwk k e Hk%cap_entries_sub. by apply Hwk. Qed.

(** One call, from any table that is well keyed. *)
Lemma maybeUpdateSummary_step sampleText (summaries : Summaries) fetched now :
  well_keyed summaries → size summaries ≤ maxEntries →
  let key := simpleHash (take 800 sampleText) in
  let outcome := maybeUpdateSummary sampleText summaries fetched now in
  let after := stored_after summaries outcome in
  well_keyed after ∧ size after ≤ maxEntries ∧
  (∀ k e, summaries !! k = Some e →
          after !! k = Some e ∨ after !! k = None) ∧
  (is_Some (summaries !! key) →
   outcome = AlreadyCached ∧ after = summaries) ∧
  (∀ stored, outcome = Saved stored → size summaries = maxEntries →
     ∃ entry k_old e_old,
       sectionKey entry = key ∧ updatedAt entry = now ∧
       <[key := entry]> summaries !! k_old = Some e_old ∧
       stored = delete k_old (<[key := entry]> summaries) ∧
       ∀ k e, stored !! k = Some e → (updatedAt e_old ≤ updatedAt e)%Z).
Proof.
  intros Hwk Hsize key outcome after.
  assert (∀ stored, outcome = Saved stored →
     ∃ entry, sectionKey entry = key ∧ updatedAt entry = now ∧
              summaries !! key = None ∧
              well_keyed (<[key := entry]> summaries) ∧
              stored = cap_entries (<[key := entry]> summaries)) as Hsaved.
  { intros stored Hout.
    destruct (maybeUpdateSummary_saved _ _ _ _ _ Hwk Hout)
      as (digest & Hdigest & Hfresh & ->).
    eexists. split_and!; [| | done | by apply well_keyed_insert | done]; done. }
  split_and!.
  - unfold after. destruct outcome as [| | |stored] eqn:Hout; try done.
    destruct (Hsaved stored eq_refl) as (entry & _ & _ & _ & Hwk' & ->).
    by apply well_keyed_cap.
  - unfold after. destruct outcome as [| | |stored] eqn:Hout; try done.
    destruct (Hsaved stored eq_refl) as (entry & _ & _ & _ & _ & ->).
    apply cap_entries_size.
  - intros k e Hk. unfold after.
    destruct outcome as [| | |stored] eqn:Hout; try (by left).
    destruct (Hsaved stored eq_refl) as (entry & _ & _ & Hfresh & _ & ->).
    simpl. rewrite cap_entries_lookup. destruct (decide _); [by right|].
    left. rewrite lookup_insert_ne; [done|]. congruence.
  - intros Hcached. unfold after, outcome.
    by rewrite maybeUpdateSummary_cached.
  - intros stored Hout Hfull.
    destruct (Hsaved stored Hout) as (entry & Hkey & Hnow & Hfresh & Hwk' & ->).
    destruct (cap_entries_evicts (<[key := entry]> summaries) Hwk')
      as (k_old & e_old & Hold & Hcap & Hmin).
    { rewrite map_size_insert_None by done. by rewrite Hfull. }
    exists entry, k_old, e_old. by split_and!.
Qed.

Lemma replay_invariant (history : list Call) :
  well_keyed (replay history) ∧ size (replay history) ≤ maxEntries.
Proof.
  unfold replay. induction history as [|c history IH] using rev_ind.
  - simpl. split; [by intros k e ?|].
    rewrite map_size_empty. unfold maxEntries. lia.
  - rewrite foldl_snoc. destruct IH as [Hwk Hsize].
    destruct (maybeUpdateSummary_step (sampled c) _ (fetched c) (clock c)
                Hwk Hsize) as (H1 & H2 & _).
    by split.
Qed.

(** C7.  Take the table a document has after any history of completed
    calls, and one more call.  Afterwards the table holds at most twelve
    entries; an entry written before is either still there unchanged or
    has been evicted, and a call whose fingerprint is already present
    changes nothing; and when the call stores a thirteenth entry, exactly
    one entry is evicted and no remaining entry has a smaller
    [updatedAt] than it. *)
Theorem C7_cache_bound (history : list Call) (c : Call) :
  let summaries := replay history in
  let key := simpleHash (take 800 (sampled c)) in
  let outcome :=
    maybeUpdateSummary (sampled c) summaries (fetched c) (clock c) in
  let after := replay (history ++ [c]) in
  size after ≤ 12 ∧
  (∀ k e, summaries !! k = Some e →
          after !! k = Some e ∨ after !! k = None) ∧
  (is_Some (summaries !! key) →
   outcome = AlreadyCached ∧ after = summaries) ∧
  (∀ stored, outcome = Saved stored → size summaries = 12 →
     ∃ entry k_old e_old,
       sectionKey entry = key ∧ updatedAt entry = clock c ∧
       <[key := entry]> summaries !! k_old = Some e_old ∧
       after = delete k_old (<[key := entry]> summaries) ∧
       ∀ k e, after !! k = Some e → (updatedAt e_old ≤ updatedAt e)%Z).
Proof.
  intros summaries key outcome after.
  destruct (replay_invariant history) as [Hwk Hsize].
  assert (after = stored_after summaries outcome) as Hafter
    by (unfold after, replay; by rewrite foldl_snoc).
  destruct (maybeUpdateSummary_step (sampled c) _ (fetched c) (clock c)
              Hwk Hsize) as (_ & H2 & H3 & H4 & H5).
  fold summaries key outcome in H2, H3, H4, H5. rewrite <- Hafter in *.
  split_and!; [done | done | done |].
  intros stored Hout Hfull.
  destruct (H5 stored Hout Hfull)
    as (entry & k_old & e_old & ? & ? & ? & Hstored & Hmin).
  exists entry, k_old, e_old. rewrite Hafter, Hout. simpl.
  rewrite <- Hstored. by split_and!.
Qed.

End cache_write_history.

Section cache_scenario.
Import SummaryCache.

(** Twelve calls fill the table; the thirteenth evicts the oldest entry,
    the one of the first call. *)
Example thirteenth_evicts_oldest :
  size (replay (take 12 thirteen_calls)) = 12 ∧
  size (replay thirteen_calls) = 12 ∧
  updatedAt <$> replay (take 12 thirteen_calls) !! simpleHash (str "Abstract")
    = Some 1000%Z ∧
  replay thirteen_calls !! simpleHash (str "Abstract") = None ∧
  updatedAt <$> replay thirteen_calls !! simpleHash (str "Conclusion")
    = Some 1012%Z.
Proof. by vm_compute. Qed.

End cache_scenario.

(** * Further properties *)

(** ** Output repair: each step on its own *)

Section repair_laws.
Import Repair.

Lemma infix_take_trim (e : nat) (t : jsstring) :
  ∃ a b, t = a ++ trim (take e t) ++ b.
Proof.
  unfold trim.
  destruct (trimStart_suffix (take e t)) as [a Ha].
  destruct (trimEnd_prefix (trimStart (take e t))) as [b Hb].
  exists a, (b ++ drop e t).
  rewrite <- (take_drop e t) at 1. rewrite Ha at 1. rewrite Hb at 1.
  by rewrite <- !app_assoc.
Qed.

(** X1.  Sentence completion is idempotent: completing a text that has
    been completed changes nothing. *)
Theorem X1_sentences_idempotent (text : jsstring) :
  ensureCompleteSentences (ensureCompleteSentences text) =
  ensureCompleteSentences text.
Proof.
  destruct (ensureCompleteSentences_shape text) as [[_ Hsame] | Hdone].
  - by rewrite !Hsame.
  - rewrite <- (app_nil_r (ensureCompleteSentences text)) at 1.
    apply ensureCompleteSentences_stable; [done | constructor | done].
Qed.

(** X2.  Sentence completion only removes text: its result is a contiguous
    part of the input.  Either the input has no terminal mark and is
    returned as it is, or the result ends in a terminal mark followed by
    closers only and does not start with white space. *)
Theorem X2_sentences_keep_a_part (text : jsstring) :
  (∃ a b, text = a ++ ensureCompleteSentences text ++ b) ∧
  ((no_terminal text ∧ ensureCompleteSentences text = text) ∨
   completed (ensureCompleteSentences text)).
Proof.
  split; [|apply ensureCompleteSentences_shape].
  unfold ensureCompleteSentences.
  destruct (truthy_str text); simpl.
  - destruct (last_terminal text =? -1)%Z.
    + exists [], []. by rewrite app_nil_r.
    + apply infix_take_trim.
  - exists [], []. by rewrite app_nil_r.
Qed.

Lemma environments_NoDup : NoDup environments.
Proof.
  unfold environments. simpl.
  repeat (apply NoDup_cons; split;
          [intros Hin;
           repeat (apply elem_of_cons in Hin as [Heq|Hin];
                   [discriminate Heq|]);
           by apply elem_of_nil in Hin|]).
  apply NoDup_nil_2.
Qed.

Lemma deficit_kept (env env' y : jsstring) :
  env ∈ environments → env' ∈ environments → env' ≠ env →
  deficit env' (close_environment y env) = deficit env' y.
Proof.
  intros He He' Hne. unfold deficit.
  rewrite open_count_kept, close_count_grows by done.
  rewrite decide_False by done. lia.
Qed.

Lemma fold_close_counts (envs : list jsstring) (env y : jsstring) :
  NoDup envs → envs ⊆ environments → env ∈ environments →
  count_matches (open_marker env) (foldl close_environment y envs) =
    count_matches (open_marker env) y ∧
  count_matches (close_marker env) (foldl close_environment y envs) =
    count_matches (close_marker env) y +
    (if decide (env ∈ envs) then deficit env y else 0).
Proof.
  intros Hnd. revert y. induction Hnd as [|e envs Hnotin Hnd IH];
    intros y Hsub He; simpl.
  - split; [done|].
    destruct (decide (env ∈ [])) as [Hin|_]; [by apply elem_of_nil in Hin|].
    lia.
  - assert (e ∈ environments) as Hein by (apply Hsub; left).
    destruct (IH (close_environment y e)) as [Hopen Hclose];
      [by intros z Hz; apply Hsub; right | done |].
    rewrite Hopen, Hclose, open_count_kept, close_count_grows by done.
    split; [done|].
    destruct (decide (env = e)) as [->|Hne].
    + rewrite (decide_False (P := e ∈ envs)) by done.
      rewrite decide_True by left. lia.
    + rewrite deficit_kept by done.
      destruct (decide (env ∈ envs)) as [Hin|Hout].
      * rewrite decide_True by (by right). lia.
      * rewrite decide_False; [lia|].
        by intros [?|?]%elem_of_cons.
Qed.

(** X3.  Environment completion only appends: the input is a prefix of the
    result; in the result every tracked environment has at least as many
    closing as opening markers; a text that is balanced already is returned
    as it is; and completing twice is completing once. *)
Theorem X3_latex_only_appends (text : jsstring) :
  text `prefix_of` ensureLatexCompleteness text ∧
  (∀ env, env ∈ environments → balanced env (ensureLatexCompleteness text)) ∧
  ((∀ env, env ∈ environments → balanced env text) →
   ensureLatexCompleteness text = text) ∧
  ensureLatexCompleteness (ensureLatexCompleteness text) =
  ensureLatexCompleteness text.
Proof.
  split_and!.
  - destruct (ensureLatexCompleteness_suffix text) as (w & -> & _).
    by exists w.
  - intros env He. rewrite ensureLatexCompleteness_fold.
    apply fold_close_balanced; [done | done | by left].
  - intros Hbal. rewrite ensureLatexCompleteness_fold.
    by apply fold_close_id.
  - apply ensureLatexCompleteness_idem.
Qed.

(** X4.  For each tracked environment, environment completion keeps the
    number of opening markers and brings the number of closing markers to
    the larger of the two counts: it adds what is missing and never removes
    a surplus closing marker. *)
Theorem X4_latex_counts (text : jsstring) :
  Forall (λ env,
    let opens := count_matches (open_marker env) text in
    let closes := count_matches (close_marker env) text in
    count_matches (open_marker env) (ensureLatexCompleteness text) = opens ∧
    count_matches (close_marker env) (ensureLatexCompleteness text)
      = opens `max` closes) environments.
Proof.
  apply Forall_forall. intros env He opens closes.
  rewrite ensureLatexCompleteness_fold.
  destruct (fold_close_counts environments env text environments_NoDup)
    as [Hopen Hclose]; [done | done |].
  rewrite Hopen, Hclose, decide_True by done.
  unfold deficit. fold opens closes. lia.
Qed.

End repair_laws.

(** ** Model client: the stream, chunk by chunk and line by line *)

Section stream_laws.
Import ModelClient.
Variable JSON_parse : jsstring → option JsValue.

Lemma split_on_nonempty c (s : jsstring) : split_on c s ≠ [].
Proof.
  destruct s as [|x s]; simpl; [done|].
  destruct (x =? c)%Z; [done|]. by destruct (split_on c s).
Qed.

Lemma split_on_app_sep (a b : jsstring) :
  split_on LF (a ++ LF :: b) = split_on LF a ++ split_on LF b.
Proof.
  induction a as [|x a IH]; simpl; [done|].
  rewrite IH. destruct (x =? LF)%Z; [done|].
  pose proof (split_on_nonempty LF a). by destruct (split_on LF a).
Qed.

Lemma deltas_of_app_sep (a b : jsstring) :
  deltas_of JSON_parse (a ++ LF :: b) =
  deltas_of JSON_parse a ++ deltas_of JSON_parse b.
Proof. unfold deltas_of. by rewrite split_on_app_sep, bind_app. Qed.

Lemma fragment_deltas_truthy (piece : jsstring) :
  Forall (λ d, truthy d = true) (fragment_deltas JSON_parse piece).
Proof.
  unfold fragment_deltas. destruct (truthy_str (trim piece)); [|constructor].
  destruct (JSON_parse (trim piece)) as [obj|]; [|constructor].
  destruct (truthy (delta_of obj)) eqn:Hd; simpl; [|constructor].
  destruct (converts (delta_of obj)); by repeat constructor.
Qed.

Lemma deltas_of_truthy (text : jsstring) :
  Forall (λ d, truthy d = true) (deltas_of JSON_parse text).
Proof.
  unfold deltas_of. apply Forall_bind, Forall_forall. intros piece _.
  apply fragment_deltas_truthy.
Qed.

Lemma streaming_run (status : Z) (chunks : list jsstring) :
  ollamaChatStream JSON_parse (streaming status chunks) =
  (Ok (concat (image <$> deltas_of JSON_parse (concat chunks))),
   deltas_of JSON_parse (concat chunks)).
Proof. by apply ollamaChatStream_run. Qed.

(** X5.  Every value [ollamaChatStream] passes to [onDelta] is truthy,
    whatever the response: an empty, missing or otherwise falsy delta never
    reaches the callback. *)
Theorem X5_stream_deltas_truthy (fetched : Result Response) :
  Forall (λ d, truthy d = true) (ollamaChatStream JSON_parse fetched).2.
Proof.
  destruct fetched as [res|e]; [|constructor].
  destruct (ok res) eqn:Hok, (body res) as [chunks|] eqn:Hbody;
    try (unfold ollamaChatStream; rewrite Hok, Hbody; constructor).
  rewrite (ollamaChatStream_run _ res chunks Hok Hbody). simpl.
  apply deltas_of_truthy.
Qed.

(** X6.  A stream is handled line by line: for two wire texts joined by a
    line feed, the [onDelta] calls are those of the first text followed by
    those of the second, and the returned text is the two returned texts
    joined. *)
Theorem X6_stream_line_by_line (status : Z) (a b : jsstring) :
  let run text := ollamaChatStream JSON_parse (streaming status [text]) in
  ∃ full_a calls_a full_b calls_b,
    run a = (Ok full_a, calls_a) ∧
    run b = (Ok full_b, calls_b) ∧
    run (a ++ [LF] ++ b) = (Ok (full_a ++ full_b), calls_a ++ calls_b).
Proof.
  intros run. unfold run. rewrite !streaming_run. simpl.
  rewrite !app_nil_r, deltas_of_app_sep.
  do 4 eexists. split_and!; [done | done |].
  by rewrite fmap_app, concat_app.
Qed.

End stream_laws.

(** ** Flows: failures, delivered text, questions *)

Section flow_laws.
Import Repair ModelClient Engine Asking.
Variable toLowerCase : jsstring → jsstring.
Variable JSON_parse : jsstring → option JsValue.

Lemma ensureLatexCompleteness_balanced (x env : jsstring) :
  env ∈ environments → balanced env (ensureLatexCompleteness x).
Proof.
  intros He. rewrite ensureLatexCompleteness_fold.
  apply fold_close_balanced; [done | done | by left].
Qed.

Lemma finalOut_completed out t :
  finalOut out = Ok t → ∃ u, t = ensureLatexCompleteness u.
Proof.
  unfold finalOut. destruct (safeOut out) as [safe|e]; [|done].
  simpl. intros [= <-]. by eexists.
Qed.

(** Every text a flow delivers has gone through the last repair step. *)
Lemma delivered_completed (fetched : Result Response) (page : Page)
    (has_tab : bool) (t : jsstring) :
  on_coach fetched = ReplyText t ∨
  on_coach_expand fetched = ReplyText t ∨
  (∃ name is_paused, Answer t ∈ on_alarm name is_paused page fetched) ∨
  Answer t ∈ (on_run_now JSON_parse page fetched).2 ∨
  (on_qa JSON_parse has_tab fetched).1 = ReplyText t →
  ∃ u, t = ensureLatexCompleteness u.
Proof.
  assert (∀ r, ollamaChat fetched ≫= finalOut = Ok r →
               ∃ u, r = ensureLatexCompleteness u) as Hchat.
  { intros r. destruct (ollamaChat fetched) as [out|e]; [|done].
    simpl. apply finalOut_completed. }
  intros [H | [H | [(name & is_paused & H) | [H | H]]]].
  - unfold on_coach in H.
    destruct (ollamaChat fetched ≫= finalOut) as [r|e] eqn:Hr; [|done].
    injection H as ->. by apply Hchat.
  - unfold on_coach_expand in H.
    destruct (ollamaChat fetched ≫= finalOut) as [r|e] eqn:Hr; [|done].
    injection H as ->. by apply Hchat.
  - unfold on_alarm in H.
    repeat (match type of H with
            | _ ∈ (if ?b then _ else _) => destruct b
            end; [by apply elem_of_nil in H|]).
    destruct (ollamaChat fetched ≫= finalOut) as [r|e] eqn:Hr.
    + apply list_elem_of_singleton in H. injection H as ->. by apply Hchat.
    + by apply list_elem_of_singleton in H.
  - unfold on_run_now in H.
    repeat (match type of H with
            | _ ∈ (if ?b then _ else _).2 =>
                destruct b; [by apply elem_of_nil in H|]
            end).
    destruct (ollamaChatStream JSON_parse fetched) as [settled calls].
    destruct settled as [full|e]; [rewrite bind_Ok in H | simpl in H].
    + destruct (finalOut (JStr (streamed calls))) as [r|e] eqn:Hr;
        simpl in H; apply elem_of_app in H as [H|H].
      * by apply answer_not_delta in H.
      * apply list_elem_of_singleton in H. injection H as ->.
        by eapply finalOut_completed.
      * by apply answer_not_delta in H.
      * by apply list_elem_of_singleton in H.
    + apply elem_of_app in H as [H|H].
      * by apply answer_not_delta in H.
      * by apply list_elem_of_singleton in H.
  - unfold on_qa in H.
    destruct (ollamaChatStream JSON_parse fetched) as [settled calls].
    destruct settled as [full|e]; simpl in H; [|done].
    injection H as <-. by eexists.
Qed.


(** X8.  Every text a flow delivers, the ['coach'] and ['coach:expand']
    replies, the answers sent by ['run-now'] and by the alarm tick, and the
    ['qa'] reply, is balanced for every tracked environment. *)
Theorem X8_delivered_text_balanced (fetched : Result Response) (page : Page)
    (has_tab : bool) (t : jsstring) :
  on_coach fetched = ReplyText t ∨
  on_coach_expand fetched = ReplyText t ∨
  (∃ name is_paused, Answer t ∈ on_alarm name is_paused page fetched) ∨
  Answer t ∈ (on_run_now JSON_parse page fetched).2 ∨
  (on_qa JSON_parse has_tab fetched).1 = ReplyText t →
  Forall (λ env, balanced env t) environments.
Proof.
  intros [u ->]%delivered_completed. apply Forall_forall. intros env He.
  by apply ensureLatexCompleteness_balanced.
Qed.

Lemma trimChars_take (s : jsstring) (max : nat) : trimChars s max = take max s.
Proof.
  unfold trimChars. destruct s as [|c s]; [by destruct max|]. simpl negb.
  cbv iota. destruct (Nat.ltb_spec max (length (c :: s))); [done|].
  by rewrite take_ge by lia.
Qed.

(** X9.  The context of a question is at most 1500 units long.  When the
    table of the document was loaded and [pickBestSummary] returns an entry
    whose digest is not empty, the context is the first 1500 units of that
    digest followed (if text was provided) by the selection label and the
    provided text: the digest comes first, so it is the provided text that
    is cut, all of it when the digest alone fills the 1500 units.  In every
    other case, the table failing to load, no entry being returned or its
    digest being empty, the context is the first 1500 units of the provided
    text. *)
Theorem X9_qa_context (provided : jsstring)
    (loaded : Result SummaryCache.Summaries) :
  let context := qa_context toLowerCase provided loaded in
  let digest :=
    match loaded with
    | Ok summaries =>
        match SummaryCache.pickBestSummary toLowerCase provided summaries with
        | Some best => SummaryCache.text best
        | None => []
        end
    | Throw _ => []
    end in
  length context ≤ 1500 ∧
  (digest ≠ [] →
   context = take 1500 (digest ++
                        if decide (provided = []) then []
                        else selection_label ++ provided)) ∧
  (1500 ≤ length digest → context = take 1500 digest) ∧
  (digest = [] → context = take 1500 provided).
Proof.
  intros context digest.
  assert (digest ≠ [] →
          context = take 1500 (digest ++
                               if decide (provided = []) then []
                               else selection_label ++ provided)) as Hfirst.
  { unfold context, digest, qa_context.
    destruct loaded as [summaries|e]; [|done].
    destruct (SummaryCache.pickBestSummary toLowerCase provided summaries)
      as [best|]; [|done].
    destruct (SummaryCache.text best) as [|c r]; [done|]. intros _.
    rewrite trimChars_take.
    destruct (decide (provided = [])) as [->|Hne]; [done|].
    by destruct provided. }
  assert (digest = [] → context = take 1500 provided) as Hnone.
  { unfold context, digest, qa_context. rewrite trimChars_take.
    destruct loaded as [summaries|e]; [|done].
    destruct (SummaryCache.pickBestSummary toLowerCase provided summaries)
      as [best|]; [|done].
    by intros ->. }
  split_and!; [| done | | done].
  - destruct digest as [|c r] eqn:Hdigest.
    + rewrite Hnone by done. rewrite length_take. lia.
    + rewrite Hfirst by done. rewrite length_take. lia.
  - intros Hlong. rewrite Hfirst by (by destruct digest; [simpl in Hlong; lia|]).
    by rewrite take_app_le by lia.
Qed.

(** X10.  The ['qa'] reply is the streamed text, the images of the deltas
    passed to [onDelta] joined, followed by what environment completion
    appends, which holds no terminal mark: no sentence is cut and no
    fallback text is put in its place.  The deltas are forwarded when there
    is a tab, and a stream without deltas gives an empty reply text. *)
Theorem X10_qa_answer_extends_stream (has_tab : bool) (status : Z)
    (chunks : list jsstring) :
  let deltas := deltas_of JSON_parse (concat chunks) in
  let streamed_text := concat (image <$> deltas) in
  ∃ closing,
    on_qa JSON_parse has_tab (streaming status chunks) =
      (ReplyText (streamed_text ++ closing), if has_tab then deltas else []) ∧
    no_terminal closing ∧
    (streamed_text = [] → closing = []).
Proof.
  intros deltas streamed_text. unfold on_qa. rewrite streaming_run.
  fold deltas. rewrite streamed_concat. fold streamed_text.
  destruct (ensureLatexCompleteness_suffix streamed_text) as (w & Hw & Hno & _).
  exists w. rewrite Hw. split_and!; [done | done |].
  intros Hnil. rewrite Hnil in Hw. by vm_compute in Hw.
Qed.

End flow_laws.


(** A reply with an open list: the sentence after the last full stop is
    cut and the list is closed. *)
Lemma X8_delivered_text_balanced_witness :
  let fetched :=
    digest_response "Use a list. \begin{itemize} \item State the aim. Then" in
  let delivered :=
    str "Use a list. \begin{itemize} \item State the aim." ++ [LF] ++
    str "\end{itemize}" in
  Engine.on_coach fetched = Engine.ReplyText delivered ∧
  Forall (λ env, balanced env delivered) Repair.environments.
Proof.
  intros fetched delivered.
  assert (Engine.on_coach fetched = Engine.ReplyText delivered) as Hcoach
    by (by vm_compute).
  split; [exact Hcoach|].
  apply (X8_delivered_text_balanced JSON_parse_sample fetched
           {| Engine.has_tab := false; Engine.visible_text := [];
              Engine.full_text := [] |} false delivered).
  left. exact Hcoach.
Defined.

(** A table with one digest: the context of a question on a selection is
    the digest, the label and the selection. *)
Lemma X9_qa_context_witness :
  let summaries : SummaryCache.Summaries :=
    {[ 11%Z := {| SummaryCache.sectionKey := 11;
                  SummaryCache.text := str "Methods overview";
                  SummaryCache.updatedAt := 1000 |} ]} in
  Asking.qa_context toLowerCase_latin (str "our methods") (Ok summaries) =
  str "Methods overview" ++ Asking.selection_label ++ str "our methods".
Proof.
  intros summaries.
  destruct (X9_qa_context toLowerCase_latin (str "our methods") (Ok summaries))
    as (_ & Hdigest & _).
  etrans; [apply Hdigest; by vm_compute|]. by vm_compute.
Defined.

(** ** Endpoint normalization *)

Section endpoint_laws.
Import Asking Popup.

Lemma drop_slashes_head (s : jsstring) : head (drop_slashes s) ≠ Some 47%Z.
Proof.
  induction s as [|c s IH]; simpl; [done|].
  destruct (Z.eqb_spec c 47); [done|]. simpl. by intros [= ->].
Qed.

Lemma strip_slashes_last (s : jsstring) : last (strip_slashes s) ≠ Some 47%Z.
Proof. unfold strip_slashes. rewrite last_reverse. apply drop_slashes_head. Qed.

Lemma strip_slash_id (s : jsstring) : last s ≠ Some 47%Z → strip_slash s = s.
Proof.
  intros Hlast. unfold strip_slash. rewrite <- head_reverse in Hlast.
  destruct (reverse s) as [|c r]; [done|]. simpl in Hlast.
  destruct (Z.eqb_spec c 47) as [->|]; done.
Qed.

(** X11.  A normalized endpoint never ends in a slash, so the address the
    background builds from it is the endpoint followed by [/api/chat]; a
    blank field gives the default endpoint. *)
Theorem X11_normalized_endpoint (v : jsstring) :
  let endpoint := normalizeEndpoint v in
  last endpoint ≠ Some 47%Z ∧
  chat_url endpoint = endpoint ++ str "/api/chat" ∧
  (trim v = [] → endpoint = default_endpoint).
Proof.
  intros endpoint. split_and!.
  - apply strip_slashes_last.
  - unfold chat_url. rewrite strip_slash_id; [done|]. apply strip_slashes_last.
  - unfold endpoint, normalizeEndpoint. intros ->. by vm_compute.
Qed.

End endpoint_laws.

(** ** Scheduler: reachable states *)

Section scheduler_laws.
Import Scheduler.
Local Open Scope Z_scope.

Lemma run_snoc evs ev : run (evs ++ [ev]) = handle ev (run evs).
Proof. unfold run. by rewrite foldl_app. Qed.

Lemma getSettings_handle ev w :
  getSettings (handle ev w) =
  match ev with
  | SettingsSet patch => spread (getSettings w) patch
  | _ => getSettings w
  end.
Proof.
  destruct ev; cbn [handle].
  - rewrite getSettings_ensureAlarm, getSettings_setSettings.
    unfold getSettings, spread, all_of. by simpl.
  - apply getSettings_ensureAlarm.
  - apply getSettings_setSettings.
Qed.

Lemma handle_alarms ev w :
  at_most_tick w → alarms (handle ev w) = timer_for (getSettings (handle ev w)).
Proof.
  intros Hw. unfold timer_for. destruct ev; cbn [handle].
  - rewrite getSettings_ensureAlarm.
    by apply ensureAlarm_alarms, setSettings_at_most_tick.
  - rewrite getSettings_ensureAlarm. by apply ensureAlarm_alarms.
  - unfold setSettings. rewrite getSettings_ensureAlarm.
    by apply ensureAlarm_alarms.
Qed.

Lemma run_alarms evs : alarms (run evs) = timer_for (getSettings (run evs)).
Proof.
  destruct evs as [|ev evs _] using rev_ind; [done|].
  rewrite run_snoc. apply handle_alarms, run_at_most_tick.
Qed.

(** X12.  [ensureAlarm] is idempotent, leaves storage as it is, and touches
    no alarm other than the tick. *)
Theorem X12_ensureAlarm_idempotent (w : Chrome) :
  ensureAlarm (ensureAlarm w) = ensureAlarm w ∧
  storage (ensureAlarm w) = storage w ∧
  ∀ name, name ≠ TICK → alarms (ensureAlarm w) !! name = alarms w !! name.
Proof.
  split_and!.
  - unfold ensureAlarm at 1. rewrite getSettings_ensureAlarm.
    unfold ensureAlarm, alarms_create, alarms_clear.
    destruct (negb (paused (getSettings w)) && (intervalMin (getSettings w) >? 0));
      simpl; f_equal.
    + by rewrite delete_insert_eq, delete_delete_eq.
    + by rewrite delete_delete_eq.
  - unfold ensureAlarm. by destruct (_ && _).
  - intros name Hname. unfold ensureAlarm.
    destruct (_ && _); simpl.
    + by rewrite lookup_insert_ne, lookup_delete_ne.
    + by rewrite lookup_delete_ne.
Qed.

(** X13.  Settings round trip: after [setSettings patch], a read returns the
    value of the patch for every key the patch holds and the value read
    before for every other key; an empty patch changes nothing that is
    read; and a fresh installation reads the defaults. *)
Theorem X13_settings_round_trip (patch : Patch) (w : Chrome) :
  let before := getSettings w in
  let after := getSettings (setSettings patch w) in
  getSettings fresh = DEFAULTS ∧
  endpoint after = default (endpoint before) (endpoint' patch) ∧
  model after = default (model before) (model' patch) ∧
  intervalMin after = default (intervalMin before) (intervalMin' patch) ∧
  paused after = default (paused before) (paused' patch) ∧
  getSettings (setSettings no_patch w) = before.
Proof.
  intros before after. unfold after. rewrite !getSettings_setSettings.
  fold before. by split_and!.
Qed.

(** X14.  The scheduler stays paused and unarmed until a settings change
    sets [paused] to [false]: after any sequence of events none of which
    does, the flag reads [true] and there is no alarm. *)
Theorem X14_paused_until_asked (evs : list Event) :
  (∀ patch, SettingsSet patch ∈ evs → paused' patch ≠ Some false) →
  paused (getSettings (run evs)) = true ∧ alarms (run evs) = ∅.
Proof.
  intros Hevs.
  assert (paused (getSettings (run evs)) = true) as Hpaused.
  { induction evs as [|ev evs IH] using rev_ind; [done|].
    rewrite run_snoc, getSettings_handle.
    assert (paused (getSettings (run evs)) = true) as Hprev.
    { apply IH. intros patch Hin. apply Hevs, elem_of_app. by left. }
    destruct ev as [| |patch]; [done | done |]. simpl.
    assert (paused' patch ≠ Some false) as Hpatch.
    { apply Hevs, elem_of_app. right. left. }
    destruct (paused' patch) as [[|]|]; done. }
  split; [done|]. rewrite run_alarms. unfold timer_for, wants_timer.
  by rewrite Hpaused.
Qed.

(** Installing, changing model and interval, restarting: no alarm. *)
Lemma X14_paused_until_asked_witness :
  let slower := {| endpoint' := None; model' := Some "llama3"%string;
                   intervalMin' := Some 10; paused' := None |} in
  alarms (run [Installed; SettingsSet slower; Startup]) = ∅.
Proof.
  intros slower.
  apply (X14_paused_until_asked [Installed; SettingsSet slower; Startup]).
  intros patch Hin.
  apply elem_of_cons in Hin as [Hin|Hin]; [discriminate Hin|].
  apply elem_of_cons in Hin as [Hin|Hin];
    [injection Hin as ->; discriminate|].
  apply elem_of_cons in Hin as [Hin|Hin]; [discriminate Hin|].
  by apply elem_of_nil in Hin.
Defined.

(** X15.  From any reachable state, [togglePause] flips the pause flag and
    keeps the other settings, leaves the timer in agreement with the new
    settings, and toggling twice restores the settings read and the
    alarms. *)
Theorem X15_togglePause (evs : list Event) :
  let w := run evs in
  let once := Panel.togglePause w in
  let twice := Panel.togglePause once in
  getSettings once =
    spread (getSettings w)
      {| endpoint' := None; model' := None; intervalMin' := None;
         paused' := Some (negb (paused (getSettings w))) |} ∧
  alarms once = timer_for (getSettings once) ∧
  getSettings twice = getSettings w ∧
  alarms twice = alarms w.
Proof.
  intros w once twice.
  assert (getSettings once =
          spread (getSettings w)
            {| endpoint' := None; model' := None; intervalMin' := None;
               paused' := Some (negb (paused (getSettings w))) |}) as Honce.
  { unfold once, Panel.togglePause. by rewrite getSettings_handle. }
  assert (at_most_tick once) as Htick.
  { apply handle_at_most_tick, run_at_most_tick. }
  assert (getSettings twice = getSettings w) as Htwice.
  { unfold twice, Panel.togglePause. rewrite getSettings_handle, Honce.
    unfold spread. simpl. rewrite negb_involutive. reflexivity. }
  split_and!; [done | | done |].
  - unfold once, Panel.togglePause. apply handle_alarms, run_at_most_tick.
  - unfold twice, Panel.togglePause at 1.
    rewrite (handle_alarms _ once Htick).
    fold (Panel.togglePause once). fold twice. rewrite Htwice.
    unfold w. by rewrite run_alarms.
Qed.

End scheduler_laws.

(** ** Popup: the interval field and the Save button *)

Section popup_laws.
Import Scheduler Popup.
Local Open Scope Z_scope.
Variable overflows : Z → bool.

Lemma clamp_interval_range (value : jsstring) :
  1 ≤ clamp_interval overflows value ≤ 60.
Proof. unfold clamp_interval. lia. Qed.

Lemma read_digits_numeral (digits : list Z) (rest : jsstring) acc seen :
  Forall (λ d, 0 ≤ d ≤ 9) digits →
  match rest with c :: _ => is_digit c = false | [] => True end →
  read_digits (numeral digits ++ rest) acc seen =
  (foldl (λ acc d, 10 * acc + d) acc digits,
   seen || bool_decide (digits ≠ [])).
Proof.
  intros Hdigits Hrest. revert acc seen.
  induction Hdigits as [|d digits Hd _ IH]; intros acc seen; simpl.
  - rewrite orb_false_r. destruct rest as [|c rest]; [done|].
    simpl. by rewrite Hrest.
  - unfold is_digit.
    replace ((48 <=? 48 + d) && (48 + d <=? 57)) with true by lia.
    rewrite IH. f_equal; [f_equal; lia|]. by rewrite orb_true_r.
Qed.

(** X16.  The interval field: a value that starts with decimal digits is
    read as the number they denote, whatever follows the digits, and the
    interval chosen is that number brought into the range 1 to 60 (for
    numbers below [2 ^ 1023], which are finite as doubles). *)
Theorem X16_interval_field (digits : list Z) (rest : jsstring) :
  Forall (λ d, 0 ≤ d ≤ 9) digits → digits ≠ [] →
  match rest with c :: _ => is_digit c = false | [] => True end →
  parseInt (numeral digits ++ rest) = Int (numeral_value digits) ∧
  (numeral_value digits < 2 ^ 1023 →
   clamp_interval overflows (numeral digits ++ rest) =
     1 `max` (60 `min` numeral_value digits)).
Proof.
  intros Hdigits Hne Hrest.
  assert (parseInt (numeral digits ++ rest) = Int (numeral_value digits))
    as Hparse.
  { destruct digits as [|d digits]; [done|].
    apply Forall_cons in Hdigits as Hd. destruct Hd as [Hd _].
    assert (is_whitespace (48 + d) = false) as Hsolid.
    { unfold is_whitespace. repeat (apply orb_false_intro); lia. }
    pose proof (read_digits_numeral (d :: digits) rest 0 false Hdigits Hrest)
      as Hread.
    unfold parseInt. rewrite trimStart_solid by done.
    destruct (numeral (d :: digits) ++ rest) as [|c r] eqn:Hunits; [done|].
    injection Hunits as <- _.
    replace (48 + d =? 45) with false by lia.
    replace (48 + d =? 43) with false by lia.
    by rewrite Hread. }
  split; [done|]. intros Hsmall. unfold clamp_interval.
  assert (truthy_str (numeral digits ++ rest) = true) as ->.
  { by destruct digits. }
  rewrite Hparse. simpl.
  assert (0 ≤ numeral_value digits) as Hpos.
  { assert (∀ acc, 0 ≤ acc → 0 ≤ foldl (λ acc d, 10 * acc + d) acc digits) as H.
    { clear -Hdigits. induction Hdigits as [|d digits Hd _ IH]; intros acc Hacc;
        simpl; [done | apply IH; lia]. }
    by apply H. }
  replace (Z.abs (numeral_value digits) <? 2 ^ 1023) with true; [done|].
  symmetry. apply Z.ltb_lt. lia.
Qed.

(** X17.  Saving the form, from any reachable state, stores an interval
    between 1 and 60, keeps the pause flag, and leaves the tick timer armed
    with that interval exactly when the extension is not paused. *)
Theorem X17_save_arms_timer (evs : list Event) (value : jsstring)
    (model endpoint : string) :
  let w := run evs in
  let saved := handle (SettingsSet (on_save overflows value model endpoint)) w in
  let minutes := clamp_interval overflows value in
  1 ≤ minutes ≤ 60 ∧
  intervalMin (getSettings saved) = minutes ∧
  paused (getSettings saved) = paused (getSettings w) ∧
  alarms saved =
    if paused (getSettings w) then ∅ else {[TICK := minutes]}.
Proof.
  intros w saved minutes.
  pose proof (clamp_interval_range value) as Hrange. fold minutes in Hrange.
  assert (getSettings saved =
          spread (getSettings w) (on_save overflows value model endpoint))
    as Hsaved.
  { unfold saved. by rewrite getSettings_handle. }
  split_and!; [lia | lia | by rewrite Hsaved | by rewrite Hsaved |].
  unfold saved. rewrite handle_alarms by apply run_at_most_tick.
  fold saved. rewrite Hsaved. unfold timer_for, wants_timer.
  cbn [spread on_save paused intervalMin paused' intervalMin' default from_option].
  fold minutes. destruct (paused (getSettings w)); [done|]. simpl.
  by replace (minutes >? 0) with true by lia.
Qed.

End popup_laws.

(** Two field values with text after the digits. *)
Lemma X16_interval_field_witness :
  Popup.clamp_interval (λ _, true) (str "90 minutes") = 60%Z ∧
  Popup.clamp_interval (λ _, true) (str "7.5") = 7%Z.
Proof.
  split.
  - apply (X16_interval_field (λ _, true) [9; 0]%Z (str " minutes")).
    + repeat constructor; lia.
    + done.
    + reflexivity.
    + reflexivity.
  - apply (X16_interval_field (λ _, true) [7]%Z (str ".5")).
    + repeat constructor; lia.
    + done.
    + reflexivity.
    + reflexivity.
Defined.

(** ** Trimming *)

Section trim_laws.

Lemma trimStart_idem (s : jsstring) : trimStart (trimStart s) = trimStart s.
Proof. apply trimStart_solid, trimStart_head. Qed.

Lemma trimEnd_idem (s : jsstring) : trimEnd (trimEnd s) = trimEnd s.
Proof. unfold trimEnd. by rewrite reverse_involutive, trimStart_idem. Qed.

Lemma trimEnd_solid_start (s : jsstring) :
  solid_start s → solid_start (trimEnd s).
Proof.
  intros Hs. destruct (trimEnd_prefix s) as [w Hw].
  destruct (trimEnd s) as [|c r]; [done|]. by rewrite Hw in Hs.
Qed.

Lemma trim_solid_start (s : jsstring) : solid_start (trim s).
Proof. apply trimEnd_solid_start, trimStart_head. Qed.

Lemma trim_idem (s : jsstring) : trim (trim s) = trim s.
Proof.
  unfold trim at 1. rewrite (trimStart_solid (trim s)) by apply trim_solid_start.
  unfold trim. apply trimEnd_idem.
Qed.

Lemma trim_Forall (P : Z → Prop) (s : jsstring) : Forall P s → Forall P (trim s).
Proof.
  intros Hs. unfold trim.
  destruct (trimEnd_prefix (trimStart s)) as [w Hw].
  destruct (trimStart_suffix s) as [v Hv].
  rewrite Hv, Hw in Hs. by apply Forall_app in Hs as [_ [Hs _]%Forall_app].
Qed.

Lemma take_solid_start (n : nat) (s : jsstring) :
  solid_start s → solid_start (take n s).
Proof. destruct s, n; done. Qed.

End trim_laws.

(** ** Text source: selection probes and the shape of a sample *)

Section text_source_laws.
Import TextSource.

Lemma first_hit_app (ps qs : list Probe) :
  first_hit (ps ++ qs) = unless (first_hit ps) (first_hit qs).
Proof.
  induction ps as [|p ps IH]; simpl; [done|].
  unfold unless in *. destruct (probe_text p); [done|done].
Qed.

Lemma first_hit_cons (p : Probe) (ps : list Probe) :
  first_hit (p :: ps) = unless (probe_text p) (first_hit ps).
Proof. done. Qed.

Lemma unless_assoc (a b c : jsstring) :
  unless (unless a b) c = unless a (unless b c).
Proof. unfold unless. by destruct a. Qed.

Lemma first_hit_cases (ps : list Probe) :
  (first_hit ps = [] ∧ Forall (λ p, probe_text p = []) ps) ∨
  ∃ before s after,
    ps = before ++ Returned s :: after ∧
    Forall (λ p, probe_text p = []) before ∧
    trim s ≠ [] ∧ first_hit ps = trim s.
Proof.
  induction ps as [|p ps IH]; simpl; [by left|].
  destruct (probe_text p) as [|c r] eqn:Hp; simpl.
  - destruct IH as [[Hnone Hall] | (before & s & after & -> & Hall & Hs & Hhit)].
    + left. split; [done|]. by constructor.
    + right. exists (p :: before), s, after. split_and!; try done.
      by constructor.
  - right. destruct p as [| |s]; try done. simpl in Hp.
    exists [], s, ps. split_and!; [done | constructor | by rewrite Hp | done].
Qed.

(** X18.  The selection is the trimmed text of the first probe that yields
    text, in the order window selection, CodeMirror, the other CodeMirror
    elements, Ace, editable ranges, every probe before it yielding none; it
    is empty exactly when no probe yields text. *)
Theorem X18_selection_priority (doc : Document) :
  find_selection doc = first_hit (probes doc) ∧
  ((find_selection doc = [] ∧ no_selection doc) ∨
   ∃ before s after,
     probes doc = before ++ Returned s :: after ∧
     Forall (λ p, probe_text p = []) before ∧
     trim s ≠ [] ∧ find_selection doc = trim s).
Proof.
  assert (find_selection doc = first_hit (probes doc)) as Heq.
  { unfold find_selection, probes.
    cbn [app]. rewrite !first_hit_cons, first_hit_app, first_hit_cons.
    rewrite !unless_assoc. by destruct (windowSelection doc). }
  split; [done|]. rewrite Heq.
  destruct (first_hit_cases (probes doc)) as [[Hnone Hall] | Hsome];
    [left | by right].
  split; [done|]. unfold probes in Hall.
  apply Forall_app in Hall as [Hfirst Hall].
  apply Forall_app in Hall as [Halt Hall].
  apply Forall_app in Hall as [Hace Hranges].
  apply Forall_cons in Hfirst as [Hwin Hcm].
  apply Forall_cons in Hcm as [Hcm _].
  apply Forall_cons in Hace as [Hace _].
  split_and!; try done. intros s Hs. by rewrite Hs in Hwin.
Qed.

Lemma replace_cr_clean (s : jsstring) : Forall (λ c, c ≠ CR) (replace_cr s).
Proof.
  unfold replace_cr. apply Forall_fmap, Forall_forall. intros c _. simpl.
  destruct (Z.eqb_spec c CR); done.
Qed.

Lemma grabEditorText_text (preferSelection : bool) (mode : Mode)
    (doc : Document) :
  text (grabEditorText preferSelection mode doc) =
  take 1500 (clean_up (chosen_text preferSelection mode doc)).
Proof.
  unfold grabEditorText, TextSource.max.
  destruct (Nat.ltb_spec 1500
              (length (clean_up (chosen_text preferSelection mode doc))));
    simpl; [done|].
  by rewrite take_ge by lia.
Qed.

(** X19.  Whatever the document, the scope and the mode, the extracted text
    is at most 1500 units long, a prefix of the cleaned text, and holds no
    carriage return and no leading white space.  When the truncation flag
    is off it is the cleaned text itself, trimmed at both ends.  The
    selection reported is the one found, and [trimChars] in the background
    leaves the text as it is. *)
Theorem X19_sample_shape (preferSelection : bool) (mode : Mode)
    (doc : Document) :
  let cleaned := clean_up (chosen_text preferSelection mode doc) in
  let sample := grabEditorText preferSelection mode doc in
  length (text sample) ≤ 1500 ∧
  text sample `prefix_of` cleaned ∧
  Forall (λ c, c ≠ CR) (text sample) ∧
  trimStart (text sample) = text sample ∧
  (wasTruncated sample = false →
   text sample = cleaned ∧ trim (text sample) = text sample) ∧
  selection sample = find_selection doc ∧
  Asking.trimChars (text sample) 1500 = text sample.
Proof.
  intros cleaned sample.
  assert (text sample = take 1500 cleaned) as Htext
    by apply grabEditorText_text.
  assert (length (text sample) ≤ 1500) as Hlen.
  { rewrite Htext, length_take. lia. }
  split_and!.
  - done.
  - rewrite Htext. apply prefix_take.
  - rewrite Htext. apply Forall_take. unfold cleaned, clean_up.
    apply trim_Forall, replace_cr_clean.
  - apply trimStart_solid. rewrite Htext.
    apply take_solid_start, trim_solid_start.
  - assert (wasTruncated sample = (1500 <? length cleaned)) as -> by done.
    intros Hflag%Nat.ltb_ge.
    assert (text sample = cleaned) as Hsame.
    { rewrite Htext. by rewrite take_ge by lia. }
    split; [done|]. rewrite Hsame. apply trim_idem.
  - done.
  - rewrite trimChars_take. by rewrite take_ge by lia.
Qed.

End text_source_laws.

(** ** Panel: asking a question *)

Section panel_laws.
Import TextSource Panel.

(** X20.  [onAsk] sends nothing for a blank question.  When it sends a
    request, the question is the trimmed value of the box and is not empty,
    and the text is at most 1500 units long; with the selection box ticked
    there is a selection and the text is taken from it alone; with neither
    box ticked the text is empty. *)
Theorem X20_onAsk_request (q : jsstring) (useSel useVisible : bool)
    (doc : Document) :
  (trim q = [] →
   onAsk q useSel useVisible doc = Notice (str "(enter a question)")) ∧
  (∀ question context,
     onAsk q useSel useVisible doc = Request question context →
     question = trim q ∧ question ≠ [] ∧
     length context ≤ 1500 ∧
     (useSel = true →
      find_selection doc ≠ [] ∧
      context = take 1500 (clean_up (find_selection doc))) ∧
     (useSel = false → useVisible = false → context = [])).
Proof.
  split.
  - intros Hq. unfold onAsk. by rewrite Hq.
  - intros question context. unfold onAsk.
    destruct (trim q) as [|c r] eqn:Hq; [done|]. simpl negb. cbv iota.
    destruct useSel; cbn [andb].
    + assert (selection (grabEditorText true All doc) = find_selection doc)
        as -> by done.
      rewrite grabEditorText_text.
      destruct (find_selection doc) as [|d sel] eqn:Hsel; [done|].
      simpl negb. cbv iota. intros [= <- <-].
      split_and!; [done | done | rewrite length_take; lia | | done].
      intros _. split; [done|]. unfold chosen_text. by rewrite Hsel.
    + intros [= <- <-]. split_and!; [done | done | | done |].
      * destruct useVisible; [|simpl; lia].
        rewrite grabEditorText_text, length_take. lia.
      * by intros _ ->.
Qed.

End panel_laws.

(** A question on a selection: the text sent is the selection, not the
    editor content. *)
Lemma X20_onAsk_request_witness :
  let doc := {|
    TextSource.windowSelection := Some (str "  We propose a method. ");
    TextSource.cmSelection := TextSource.Absent;
    TextSource.cmAltSelections := [];
    TextSource.aceSelection := TextSource.Absent;
    TextSource.editableRanges := [];
    TextSource.codeMirror := None; TextSource.ace := None;
    TextSource.editorElements := [str "\section{Intro} We propose a method."];
    TextSource.bodyInnerText := [] |} in
  Panel.onAsk (str " Is this clear? ") true false doc =
    Panel.Request (str "Is this clear?") (str "We propose a method.") ∧
  TextSource.find_selection doc ≠ [].
Proof.
  intros doc.
  assert (Panel.onAsk (str " Is this clear? ") true false doc =
          Panel.Request (str "Is this clear?") (str "We propose a method."))
    as Hask by (by vm_compute).
  split; [exact Hask|].
  destruct (X20_onAsk_request (str " Is this clear? ") true false doc)
    as [_ Hrequest].
  destruct (Hrequest _ _ Hask) as (_ & _ & _ & Hsel & _).
  by destruct (Hsel eq_refl).
Defined.

(** ** Summary cache: hashing, failure, store and look up *)

Section cache_laws.
Import ModelClient SummaryCache.
Local Open Scope Z_scope.

Lemma toInt32_mod (x : Z) : toInt32 x mod 2 ^ 32 = x mod 2 ^ 32.
Proof.
  unfold toInt32. destruct (2 ^ 31 <=? x mod 2 ^ 32).
  - rewrite <- (Z.mod_mod x (2 ^ 32)) at 2 by lia.
    rewrite Zminus_mod, Z.mod_same, Z.sub_0_r, Z.mod_mod by lia. done.
  - by rewrite Z.mod_mod by lia.
Qed.

Lemma hash_step_mod (h c : Z) :
  toInt32 (toInt32 (h ≪ 5) - h + c) mod 2 ^ 32 =
  (31 * (h mod 2 ^ 32) + c) mod 2 ^ 32.
Proof.
  rewrite toInt32_mod, Z.shiftl_mul_pow2 by lia.
  rewrite <- Zplus_mod_idemp_l, <- Zminus_mod_idemp_l, toInt32_mod.
  rewrite Zminus_mod_idemp_l, Zplus_mod_idemp_l.
  rewrite <- (Zplus_mod_idemp_l (31 * _)), Zmult_mod_idemp_r, Zplus_mod_idemp_l.
  f_equal. change (2 ^ 5) with 32. lia.
Qed.

(** X21.  [simpleHash] is the polynomial hash with multiplier 31 modulo
    [2 ^ 32]: the empty text hashes to 0, a text extended by a unit [c]
    hashes to [31 * h + c] reduced modulo [2 ^ 32], and every hash is an
    unsigned 32-bit number. *)
Theorem X21_simpleHash_polynomial (s : jsstring) (c : Z) :
  simpleHash [] = 0 ∧
  simpleHash (s ++ [c]) = (31 * simpleHash s + c) mod 2 ^ 32 ∧
  0 ≤ simpleHash s < 2 ^ 32.
Proof.
  split; [done|]. split.
  - unfold simpleHash, toUint32. rewrite foldl_app. simpl.
    apply hash_step_mod.
  - unfold simpleHash, toUint32. apply Z.mod_pos_bound. lia.
Qed.

(** X22.  A failed summarization request is swallowed: the call ends as
    already cached or with nothing stored, and the table is left as it
    was. *)
Theorem X22_summary_failure_swallowed (sampleText : jsstring)
    (summaries : Summaries) (fetched : Result Response) (now : Z) (e : Error) :
  ollamaChat fetched = Throw e →
  let outcome := maybeUpdateSummary sampleText summaries fetched now in
  (outcome = AlreadyCached ∨ outcome = NothingStored) ∧
  stored_after summaries outcome = summaries.
Proof.
  intros Hchat outcome. unfold outcome, maybeUpdateSummary. rewrite Hchat.
  destruct (match summaries !! simpleHash (take 800 sampleText) with
            | Some e0 => truthy_str (text e0)
            | None => false
            end); simpl; split; auto.
Qed.

Lemma cap_entries_small (o : Summaries) :
  (size o ≤ maxEntries)%nat → cap_entries o = o.
Proof.
  intros Hsize. unfold cap_entries.
  rewrite js_sort_length, Object_values_length.
  by destruct (Nat.ltb_spec maxEntries (size o)); [lia|].
Qed.

(** X23.  Store and look up: on a table of fewer than twelve entries with
    none under the key of the sampled text, a digest that is not blank is
    stored, trimmed, under that key with the time of the write, every other
    entry kept; a later call on the same text finds it and returns without
    consulting the model. *)
Theorem X23_summary_round_trip (sampleText digest : jsstring)
    (summaries : Summaries) (fetched fetched' : Result Response)
    (now now' : Z) :
  let key := simpleHash (take 800 sampleText) in
  let entry := {| sectionKey := key; text := trim digest; updatedAt := now |} in
  (size summaries < maxEntries)%nat →
  summaries !! key = None →
  ollamaChat fetched = Ok (JStr digest) →
  trim digest ≠ [] →
  maybeUpdateSummary sampleText summaries fetched now =
    Saved (<[key := entry]> summaries) ∧
  maybeUpdateSummary sampleText (<[key := entry]> summaries) fetched' now' =
    AlreadyCached.
Proof.
  intros key entry Hsize Hfresh Hchat Hdigest. split.
  - unfold maybeUpdateSummary. fold key. rewrite Hfresh, Hchat. simpl.
    fold entry.
    assert (truthy_str digest = true) as -> by (by destruct digest).
    assert (truthy_str (trim digest) = true) as ->
      by (by destruct (trim digest)).
    simpl. f_equal. apply cap_entries_small.
    rewrite map_size_insert_None by done. lia.
  - unfold maybeUpdateSummary. fold key. rewrite lookup_insert_eq. simpl.
    by destruct (trim digest).
Qed.

End cache_laws.

(** An HTTP 500 on an empty table: nothing is stored. *)
Lemma X22_summary_failure_swallowed_witness :
  let fetched :=
    Ok {| ModelClient.ok := false; ModelClient.status := 500;
          ModelClient.body := None; ModelClient.json := Throw TypeError |} in
  SummaryCache.stored_after ∅
    (SummaryCache.maybeUpdateSummary (str "Introduction") ∅ fetched 1000) = ∅.
Proof.
  intros fetched.
  apply (X22_summary_failure_swallowed (str "Introduction") ∅ fetched 1000
           (OllamaHTTP 500)).
  reflexivity.
Defined.

(** A digest stored in an empty table. *)
Lemma X23_summary_round_trip_witness :
  let fetched := digest_response "  The section motivates the study. " in
  SummaryCache.maybeUpdateSummary (str "Introduction") ∅ fetched 1000 =
  SummaryCache.Saved
    {[ SummaryCache.simpleHash (str "Introduction") :=
         {| SummaryCache.sectionKey := SummaryCache.simpleHash (str "Introduction");
            SummaryCache.text := str "The section motivates the study.";
            SummaryCache.updatedAt := 1000 |} ]}.
Proof.
  intros fetched.
  apply (X23_summary_round_trip (str "Introduction")
           (str "  The section motivates the study. ") ∅ fetched fetched
           1000 1000).
  - rewrite map_size_empty. unfold SummaryCache.maxEntries. lia.
  - apply lookup_empty.
  - reflexivity.
  - discriminate.
Defined.



(** ** Text source: the visible window *)

Section viewport_laws.
Import TextSource.
Local Open Scope Z_scope.

Lemma filter_imap_none {A B} (P : B → Prop) `{∀ x, Decision (P x)}
    (f : nat → A → B) (l : list A) :
  (∀ k x, l !! k = Some x → ¬ P (f k x)) → filter P (imap f l) = [].
Proof.
  revert f. induction l as [|x l IH]; intros f Hnone; [done|].
  simpl. rewrite filter_cons_False by (by apply (Hnone 0%nat)).
  apply IH. intros k y Hk. by apply (Hnone (S k)).
Qed.

Lemma visible_head (P : Z * Line → Prop) `{∀ x, Decision (P x)}
    (allLines : list Line) (i : nat) (l : Line) :
  allLines !! i = Some l → P (Z.of_nat i, l) →
  (∀ k x, allLines !! k = Some x → P (Z.of_nat k, x) → (i ≤ k)%nat) →
  head (filter P (imap (λ i l, (Z.of_nat i, l)) allLines)) =
    Some (Z.of_nat i, l).
Proof.
  intros Hi HP Hfirst. apply lookup_lt_Some in Hi as Hlt.
  assert (length (take i allLines) = i) as Hlen
    by (rewrite length_take; lia).
  rewrite <- (take_drop_middle allLines i l Hi), imap_app, filter_app, Hlen.
  rewrite filter_imap_none.
  - cbn [imap app]. rewrite Nat.add_0_r. by rewrite filter_cons_True.
  - intros k x Hk Hx. apply lookup_take_Some in Hk as [Hk Hlt'].
    specialize (Hfirst k x Hk Hx). lia.
Qed.

Lemma visible_last (P : Z * Line → Prop) `{∀ x, Decision (P x)}
    (allLines : list Line) (j : nat) (l : Line) :
  allLines !! j = Some l → P (Z.of_nat j, l) →
  (∀ k x, allLines !! k = Some x → P (Z.of_nat k, x) → (k ≤ j)%nat) →
  last (filter P (imap (λ i l, (Z.of_nat i, l)) allLines)) =
    Some (Z.of_nat j, l).
Proof.
  intros Hj HP Hlast. apply lookup_lt_Some in Hj as Hlt.
  assert (length (take j allLines) = j) as Hlen
    by (rewrite length_take; lia).
  rewrite <- (take_drop_middle allLines j l Hj), imap_app, filter_app, Hlen.
  cbn [imap]. rewrite Nat.add_0_r, filter_cons_True by done.
  rewrite (filter_imap_none P _ (drop (S j) allLines)).
  - by rewrite last_app.
  - intros k x Hk Hx. unfold compose in Hx.
    rewrite lookup_drop in Hk.
    replace (j + S k)%nat with (S j + k)%nat in Hx by lia.
    specialize (Hlast _ x Hk Hx). lia.
Qed.

(** X24.  The visible window of a CodeMirror editor.  When lines are in
    view, the text is made of the lines from the first one in view to
    sixteen lines past the last one in view, and of no line above the
    first; should that text be blank, of the twenty lines from the first
    one in view.  When no line is in view, it is the whole text or, should
    that be blank, the first twenty lines. *)
Theorem X24_visible_window (scroller : Scroller) (allLines : list Line) :
  let len := Z.of_nat (length allLines) in
  (∀ i j : nat,
     in_view_at scroller allLines i → in_view_at scroller allLines j →
     (∀ k, in_view_at scroller allLines k → (i ≤ k ≤ j)%nat) →
     let window := lines_text allLines (Z.of_nat i) (len `min` (Z.of_nat j + 17)) in
     visible_cm_text scroller allLines =
       if truthy_str (trim window) then window
       else lines_text allLines (Z.of_nat i) (len `min` (Z.of_nat i + 20))) ∧
  ((∀ k, ¬ in_view_at scroller allLines k) →
   let whole := join_lines (innerText <$> allLines) in
   visible_cm_text scroller allLines =
     if truthy_str (trim whole) then whole
     else lines_text allLines 0 (len `min` 20)).
Proof.
  intros len. split.
  - intros i j (li & Hi & Hvi) (lj & Hj & Hvj) Hbounds window.
    set (P := λ il : Z * Line,
           in_view (scrollTop scroller)
             (scrollTop scroller + clientHeight scroller) il.2 = true).
    assert (head (filter P (imap (λ i l, (Z.of_nat i, l)) allLines)) =
            Some (Z.of_nat i, li)) as Hhead.
    { apply visible_head; [done | done |].
      intros k x Hk Hx. apply Hbounds. by exists x. }
    assert (last (filter P (imap (λ i l, (Z.of_nat i, l)) allLines)) =
            Some (Z.of_nat j, lj)) as Hlast.
    { apply visible_last; [done | done |].
      intros k x Hk Hx. apply Hbounds. by exists x. }
    assert (i ≤ j)%nat as Hij by (apply Hbounds; by exists li).
    apply lookup_lt_Some in Hi as Hlt. apply lookup_lt_Some in Hj as Hlt'.
    unfold visible_cm_text.
    change (filter _ (imap (λ i l, (Z.of_nat i, l)) allLines))
      with (filter P (imap (λ i l, (Z.of_nat i, l)) allLines)).
    destruct (filter P (imap (λ i l, (Z.of_nat i, l)) allLines))
      as [|il visible] eqn:Hvisible; [done|].
    rewrite Hlast. injection Hhead as ->. cbn [fst].
    replace (Z.of_nat (length allLines) - 1) with (len - 1) by done.
    replace ((len - 1) `min` (Z.of_nat j + 16) >=? Z.of_nat i) with true
      by (unfold len; lia).
    replace ((len - 1) `min` (Z.of_nat j + 16) + 1)
      with (len `min` (Z.of_nat j + 17)) by lia.
    assert ((0 <? length (slice (Z.of_nat i) (len `min` (Z.of_nat j + 17))
                          allLines))%nat = true) as ->.
    { apply Nat.ltb_lt. unfold slice. rewrite length_take, length_drop.
      unfold len. lia. }
    fold (lines_text allLines (Z.of_nat i) (len `min` (Z.of_nat j + 17))).
    fold window.
    assert ((0 <? length allLines)%nat = true) as -> by (apply Nat.ltb_lt; lia).
    rewrite andb_true_r.
    replace (Z.of_nat i >=? 0) with true by lia.
    destruct (truthy_str (trim window)); [done|]. simpl. done.
  - intros Hnone whole.
    set (P := λ il : Z * Line,
           in_view (scrollTop scroller)
             (scrollTop scroller + clientHeight scroller) il.2 = true).
    unfold visible_cm_text. fold P.
    rewrite filter_imap_none.
    2:{ intros k x Hk Hx. apply (Hnone k). by exists x. }
    simpl. fold whole.
    destruct (truthy_str (trim whole)); [done|]. simpl.
    destruct allLines as [|l allLines]; [done|]. simpl. done.
Qed.

End viewport_laws.

(** Three lines of which the second is in view: the window runs from it
    to the end. *)
Lemma X24_visible_window_witness :
  let scroller := {| TextSource.scrollTop := 100; TextSource.clientHeight := 50 |} in
  let allLines :=
    [ {| TextSource.offsetTop := 0; TextSource.offsetHeight := 18;
         TextSource.innerText := str "\section{Intro}" |};
      {| TextSource.offsetTop := 108; TextSource.offsetHeight := 18;
         TextSource.innerText := str "We propose" |};
      {| TextSource.offsetTop := 400; TextSource.offsetHeight := 0;
         TextSource.innerText := str "a method." |} ] in
  TextSource.visible_cm_text scroller allLines =
  str "We propose" ++ [LF] ++ str "a method.".
Proof.
  intros scroller allLines.
  destruct (X24_visible_window scroller allLines) as [Hwindow _].
  apply (Hwindow 1 1).
  - eexists. split; [reflexivity|]. reflexivity.
  - eexists. split; [reflexivity|]. reflexivity.
  - intros k (l & Hk & Hview).
    destruct k as [|[|[|k]]]; simpl in Hk; try discriminate Hk;
      injection Hk as <-; try discriminate Hview.
    lia.
Defined.
